(** * A shallow embedding of [cpp/ndarray.cpp]

    The [ndarray<T>] class template: a shape ([std::vector<int>]) and a flat,
    row-major vector of [std::shared_ptr<T>] cells.  Cells are shared between
    an array and the views taken from it, so the embedding keeps an explicit
    arena of cell contents and lets arrays hold handles into it.

    Conventions.
    - [int] is modelled by [Z].  Signed overflow is undefined behaviour in
      C++, so the development speaks about executions in which no [int]
      computation overflows.
    - Behaviour the C++ standard leaves undefined (an iterator moved past the
      end of a vector, an out-of-range [operator[]] of [std::vector], a
      non-terminating loop without effects) and the failure of a vector
      constructor on a negative length are the explicit outcome [Undef] /
      [Undefined]; it is never identified with one of the three exceptions of
      the class. *)

From stdpp Require Import base list numbers.

Local Open Scope Z_scope.

(** ** Errors and results *)

(** The tags of [Error<IndexError>], [Error<TypeError>], [Error<ValueError>]. *)
Inductive ErrorTag : Type := IndexError | TypeError | ValueError.

#[global] Instance ErrorTag_eq_dec : EqDecision ErrorTag.
Proof. solve_decision. Defined.

(** Result of a [const] member function that touches no cell content. *)
Inductive result (A : Type) : Type :=
  | Ok (a : A)
  | Raise (e : ErrorTag)
  | Undef.
Arguments Ok {A} a.
Arguments Raise {A} e.
Arguments Undef {A}.

#[global] Instance result_ret : MRet result := fun A a => Ok a.
#[global] Instance result_bind : MBind result := fun A B k r =>
  match r with
  | Ok a => k a
  | Raise e => Raise e
  | Undef => Undef
  end.

(** Exceptions propagate out of a loop at the first iteration that throws. *)
Fixpoint for_each {A B : Type} (f : A -> result B) (l : list A) : result (list B) :=
  match l with
  | [] => Ok []
  | x :: l' =>
      match f x with
      | Ok y =>
          match for_each f l' with
          | Ok ys => Ok (y :: ys)
          | Raise e => Raise e
          | Undef => Undef
          end
      | Raise e => Raise e
      | Undef => Undef
      end
  end.

(** ** Element type *)

(** What the template asks of [T]: the four arithmetic operators and a
    conversion from [int]. *)
Class Elem (T : Type) : Type := {
  e_add : T -> T -> T;
  e_sub : T -> T -> T;
  e_mul : T -> T -> T;
  e_div : T -> T -> T;
  e_of_int : Z -> T
}.

(** [ndarray<int>], the instantiation used by [main].  [/] on [int] truncates
    toward zero. *)
#[global] Instance int_Elem : Elem Z := {|
  e_add := Z.add;
  e_sub := Z.sub;
  e_mul := Z.mul;
  e_div := Z.quot;
  e_of_int := fun z => z
|}.

(** ** Storage *)

(** [typedef std::vector<int> Shape]. *)
Abbreviation Shape := (list Z) (only parsing).

(** [typedef std::shared_ptr<dtype> Value]: a handle of a cell in the arena. *)
Abbreviation Value := nat (only parsing).

(** [typedef std::vector<Value> Data]. *)
Abbreviation Data := (list Value) (only parsing).

(** The arena: the content of every cell allocated so far.  Reference
    counting is not observable by the class, so cells are never reclaimed. *)
Abbreviation Heap T := (list T) (only parsing).

Record ndarray : Type := mk_ndarray {
  shape_ : Shape;
  data_ : Data
}.

#[global] Instance ndarray_eq_dec : EqDecision ndarray.
Proof. solve_decision. Defined.

(** Outcome of a member function that reads, writes or allocates cells; a
    thrown exception carries the arena as it is when the exception leaves
    the function. *)
Inductive outcome (T A : Type) : Type :=
  | Ret (a : A) (h : Heap T)
  | Throw (e : ErrorTag) (h : Heap T)
  | Undefined.
Arguments Ret {T A} a h.
Arguments Throw {T A} e h.
Arguments Undefined {T A}.

(** A [const] member function run in a given arena. *)
Definition lift {T A : Type} (r : result A) (h : Heap T) : outcome T A :=
  match r with
  | Ok a => Ret a h
  | Raise e => Throw e h
  | Undef => Undefined
  end.

(** [std::make_shared<T>(v)]. *)
Definition make_shared {T : Type} (v : T) (h : Heap T) : Value * Heap T :=
  (length h, h ++ [v]).

(** ** Shape helpers *)

(** [get_size]: [std::accumulate(begin, end, 1, std::multiplies<int>())]. *)
Definition get_size (shape : Shape) : Z := foldl Z.mul 1 shape.

(** [get_shape]: the common shape of the sub-arrays with their count in
    front; the empty shape when there is no sub-array or when one of them
    differs from the first. *)
Definition get_shape (ary : list ndarray) : Shape :=
  match ary with
  | [] => []
  | first :: _ =>
      let shape := shape_ first in
      if existsb (fun subary => bool_decide (shape_ subary ≠ shape)) ary
      then []
      else Z.of_nat (length ary) :: shape
  end.

(** [flatten_data]: [std::accumulate] appending each sub-array's handles. *)
Definition flatten_data (ary : list ndarray) : Data :=
  foldl (fun data subary => data ++ data_ subary) [] ary.

(** [transform_data]: one [make_shared] per element, in order. *)
Fixpoint transform_data {T : Type} (ary : list T) (h : Heap T) : Data * Heap T :=
  match ary with
  | [] => ([], h)
  | x :: ary' =>
      let '(c, h1) := make_shared x h in
      let '(cs, h2) := transform_data ary' h1 in
      (c :: cs, h2)
  end.

(** ** Broadcasting *)

(** [expand_data]: repeat data groups of [n] elements [k] times.  [rest] is
    the part of [old_data] from the iterator [begin] on.  Advancing [begin]
    by [n] is defined only when [0 < n] elements remain (with [n = 0] the
    loop never ends); the recursion is on a counter that starts at the
    length of [old_data] and is never exhausted before [rest] is. *)
Fixpoint expand_data_from (fuel : nat) (rest : Data) (n k : Z) (new_data : Data)
  : result Data :=
  match rest with
  | [] => Ok new_data
  | _ :: _ =>
      if bool_decide (n ≤ 0 ∨ Z.of_nat (length rest) < n) then Undef
      else
        match fuel with
        | O => Undef
        | S fuel' =>
            let group := take (Z.to_nat n) rest in
            expand_data_from fuel' (drop (Z.to_nat n) rest) n k
              (new_data ++ concat (replicate (Z.to_nat k) group))
        end
  end.

Definition expand_data (old_data : Data) (n k : Z) : result Data :=
  expand_data_from (length old_data) old_data n k [].

(** The local variables of [braodcast] that live across loop iterations. *)
Record bstate : Type := mk_bstate {
  b_lsize : Z;
  b_rsize : Z;
  b_ldata : Data;
  b_rdata : Data;
  b_shape : Shape
}.

(** One iteration of the loop of [braodcast] from [if (ldim != rdim)] on;
    [None] is [return false]. *)
Definition braodcast_body (is_lhs_mutable : bool) (ldim rdim : Z) (st : bstate)
  : result (option bstate) :=
  let '(mk_bstate lsize rsize ldata rdata shape) := st in
  if bool_decide (ldim ≠ rdim) then
    if bool_decide (rdim = 1) then
      rdata' ← expand_data rdata rsize ldim;
      Ok (Some (mk_bstate (lsize * ldim) (rsize * ldim) ldata rdata' (shape ++ [ldim])))
    else if is_lhs_mutable && bool_decide (ldim = 1) then
      ldata' ← expand_data ldata lsize rdim;
      Ok (Some (mk_bstate (lsize * rdim) (rsize * rdim) ldata' rdata (shape ++ [rdim])))
    else Ok None
  else Ok (Some (mk_bstate (lsize * ldim) (rsize * rdim) ldata rdata (shape ++ [ldim]))).

(** The loop once [i == lshape.rend()]: [ldim] keeps its initial value 1. *)
Fixpoint braodcast_loop_r (is_lhs_mutable : bool) (j : list Z) (st : bstate)
  : result (option bstate) :=
  match j with
  | [] => Ok (Some st)
  | rdim :: j' =>
      match braodcast_body is_lhs_mutable 1 rdim st with
      | Ok (Some st') => braodcast_loop_r is_lhs_mutable j' st'
      | r => r
      end
  end.

(** The loop of [braodcast]; [i] and [j] are what the two reverse iterators
    still have to visit. *)
Fixpoint braodcast_loop (is_lhs_mutable : bool) (i j : list Z) (st : bstate)
  : result (option bstate) :=
  match i with
  | [] => braodcast_loop_r is_lhs_mutable j st
  | ldim :: i' =>
      let '(rdim, j') := match j with [] => (1, []) | rdim :: j' => (rdim, j') end in
      match braodcast_body is_lhs_mutable ldim rdim st with
      | Ok (Some st') => braodcast_loop is_lhs_mutable i' j' st'
      | r => r
      end
  end.

(** [braodcast]: the returned flag with the final values of the three
    reference parameters [ldata], [rdata] and [shape]; they are only read by
    the callers when the flag is [true]. *)
Definition braodcast (lshape rshape : Shape) (is_lhs_mutable : bool)
    (ldata rdata : Data) (shape : Shape) : result (option (Data * Data * Shape)) :=
  st ← braodcast_loop is_lhs_mutable (rev lshape) (rev rshape)
         (mk_bstate 1 1 ldata rdata shape);
  match st with
  | None => Ok None
  | Some st => Ok (Some (b_ldata st, b_rdata st, rev (b_shape st)))
  end.

(** ** Observers *)

Definition shape (a : ndarray) : Shape := shape_ a.
Definition ndim (a : ndarray) : Z := Z.of_nat (length (shape_ a)).
Definition size (a : ndarray) : Z := Z.of_nat (length (data_ a)).

(** [len]: [shape_.front()], a [TypeError] on a scalar. *)
Definition len (a : ndarray) : result Z :=
  if bool_decide (ndim a = 0) then Raise TypeError
  else Ok (hd 0 (shape_ a)).

(** [operator T()]: the content of the only cell. *)
Definition to_scalar {T : Type} (a : ndarray) (h : Heap T) : outcome T T :=
  if bool_decide (size a ≠ 1) then Throw TypeError h
  else
    match data_ a with
    | c :: _ =>
        match h !! c with
        | Some v => Ret v h
        | None => Undefined
        end
    | [] => Undefined
    end.

(** ** Construction *)

(** [ndarray()]: [shape_({0})] and no cell. *)
Definition ndarray_default : ndarray := mk_ndarray [0] [].

(** [std::iota(ary.begin(), ary.end(), start)]: the counter is the [int]
    [start], incremented as an [int] and converted to [T] at each store. *)
Definition iota {T : Type} `{Elem T} (n : nat) (start : Z) : list T :=
  e_of_int <$> seqZ start (Z.of_nat n).

(** [arange]; [std::vector<T> ary(n)] fails on a negative [n]. *)
Definition arange {T : Type} `{Elem T} (n start : Z) (h : Heap T) : outcome T ndarray :=
  if bool_decide (n < 0) then Undefined
  else
    let ary := iota (Z.to_nat n) start in
    let '(data, h') := transform_data ary h in
    Ret (mk_ndarray [n] data) h'.

(** [scalar]. *)
Definition scalar {T : Type} (s : T) (h : Heap T) : outcome T ndarray :=
  let '(c, h') := make_shared s h in
  Ret (mk_ndarray [] [c]) h'.

(** [full]; [std::vector<T>(size, fill_value)] fails on a negative [size]. *)
Definition full {T : Type} (shape : Shape) (fill_value : T) (h : Heap T)
  : outcome T ndarray :=
  let size := get_size shape in
  if bool_decide (size < 0) then Undefined
  else
    let '(data, h') := transform_data (replicate (Z.to_nat size) fill_value) h in
    Ret (mk_ndarray shape data) h'.

(** [ndarray(std::initializer_list<ndarray>)]: both early [return]s leave the
    two members default-initialised, that is, empty. *)
Definition ndarray_nested (ary : list ndarray) : ndarray :=
  let shape := get_shape ary in
  if bool_decide (shape = []) then mk_ndarray [] []
  else
    let data := flatten_data ary in
    if bool_decide (data = []) then mk_ndarray [] []
    else mk_ndarray shape data.

(** [ndarray(std::initializer_list<T>)]. *)
Definition ndarray_flat {T : Type} (ary : list T) (h : Heap T) : outcome T ndarray :=
  let shape := [Z.of_nat (length ary)] in
  let '(data, h') := transform_data ary h in
  Ret (mk_ndarray shape data) h'.

(** [reshape]. *)
Definition reshape (this : ndarray) (new_shape : Shape) : result ndarray :=
  let size := get_size (shape_ this) in
  if bool_decide (size ≠ get_size new_shape) then Raise ValueError
  else Ok (mk_ndarray new_shape (data_ this)).

(** [astype<U>]: the new cells live in the arena of [U]. *)
Fixpoint astype_loop {T U : Type} (cast : T -> U) (data : Data) (h : Heap T) (hu : Heap U)
  : option (Data * Heap U) :=
  match data with
  | [] => Some ([], hu)
  | arg :: data' =>
      match h !! arg with
      | None => None
      | Some v =>
          let '(c, hu1) := make_shared (cast v) hu in
          match astype_loop cast data' h hu1 with
          | Some (cs, hu2) => Some (c :: cs, hu2)
          | None => None
          end
      end
  end.

Definition astype {T U : Type} (cast : T -> U) (this : ndarray) (h : Heap T) (hu : Heap U)
  : outcome U ndarray :=
  match astype_loop cast (data_ this) h hu with
  | Some (data, hu') => Ret (mk_ndarray (shape_ this) data) hu'
  | None => Undefined
  end.

(** ** Indexing and slicing *)

(** [resolve_index]. *)
Definition resolve_index (this : ndarray) (index : Z) (verify : bool) : result Z :=
  if bool_decide (ndim this = 0) then Raise IndexError
  else
    dim ← len this;
    if verify && (bool_decide (index < - dim) || bool_decide (index >= dim))
    then Raise IndexError
    else Ok (if bool_decide (index < 0) then index + dim else index).

(** [operator[]]: the iterator pair handed to the [Data] constructor has to
    lie inside [data_]. *)
Definition subscript (this : ndarray) (index : Z) : result ndarray :=
  index ← resolve_index this index true;
  let shape := tail (shape_ this) in
  let size := get_size shape in
  let index := index * size in
  if bool_decide (0 ≤ index ∧ 0 ≤ size ∧ index + size ≤ Z.of_nat (length (data_ this)))
  then Ok (mk_ndarray shape (take (Z.to_nat size) (drop (Z.to_nat index) (data_ this))))
  else Undef.

(** An argument of [slice]: an [int] or a [std::pair<int, int>]. *)
Inductive slice_arg : Type :=
  | Idx (index : Z)
  | Range (first second : Z).

(** The three overloads of [slice_impl], by the first argument; the recursive
    calls go through [slice], which checks the argument count again.  In the
    overload for a range, [return {}] value-initialises the result, that is,
    it returns [ndarray()]. *)
Fixpoint slice_impl (args : list slice_arg) (this : ndarray) {struct args}
  : result ndarray :=
  match args with
  | [] => Ok this
  | Idx index :: args' =>
      sub ← subscript this index;
      if bool_decide (Z.of_nat (length args') > ndim sub) then Raise IndexError
      else slice_impl args' sub
  | Range first second :: args' =>
      b ← resolve_index this first false;
      let begin := Z.max 0 b in
      l ← len this;
      e ← resolve_index this second false;
      let end_ := Z.min l e in
      slices ← for_each (fun begin =>
                  sub ← subscript this begin;
                  if bool_decide (Z.of_nat (length args') > ndim sub) then Raise IndexError
                  else slice_impl args' sub)
                (seqZ begin (end_ - begin));
      let shape := get_shape slices in
      if bool_decide (shape = []) then Ok ndarray_default
      else
        let data := flatten_data slices in
        if bool_decide (data = []) then Ok ndarray_default
        else Ok (mk_ndarray shape data)
  end.

(** [slice]. *)
Definition slice (this : ndarray) (args : list slice_arg) : result ndarray :=
  if bool_decide (Z.of_nat (length args) > ndim this) then Raise IndexError
  else slice_impl args this.

(** Successive applications of [operator[]], as in [a[i][j][k]]. *)
Fixpoint subscripts (this : ndarray) (indices : list Z) : result ndarray :=
  match indices with
  | [] => Ok this
  | index :: indices' => sub ← subscript this index; subscripts sub indices'
  end.

(** ** Assignment and arithmetic *)

(** The loop of [operator=]: the content of [rdata[i]] is stored into the
    cell [data_[i]], one cell after the other, each read seeing the writes
    made before it. *)
Fixpoint assign_loop {T : Type} (data rdata : Data) (h : Heap T) : option (Heap T) :=
  match data with
  | [] => Some h
  | c :: data' =>
      match rdata with
      | [] => None
      | r :: rdata' =>
          match h !! r with
          | None => None
          | Some v =>
              if bool_decide (c < length h)%nat
              then assign_loop data' rdata' (<[c := v]> h)
              else None
          end
      end
  end.

(** [operator=(const ndarray &)]; the returned reference is [*this]. *)
Definition assign {T : Type} (this rhs : ndarray) (h : Heap T) : outcome T ndarray :=
  match braodcast (shape this) (shape rhs) false (data_ this) (data_ rhs) [] with
  | Undef => Undefined
  | Raise e => Throw e h
  | Ok None => Throw ValueError h
  | Ok (Some (ldata, rdata, shape)) =>
      match assign_loop (data_ this) rdata h with
      | Some h' => Ret this h'
      | None => Undefined
      end
  end.

Inductive Operator : Type := OP_ADD | OP_SUB | OP_MUL | OP_DIV.

(** The loop of [operator_impl]:
    [data[i]] is a fresh cell holding [f] of the contents of [ldata[i]] and
    [rdata[i]]. *)
Fixpoint operator_loop {T : Type} (f : T -> T -> T) (ldata rdata : Data) (h : Heap T)
  : option (Data * Heap T) :=
  match ldata with
  | [] => Some ([], h)
  | l :: ldata' =>
      match rdata with
      | [] => None
      | r :: rdata' =>
          match h !! l, h !! r with
          | Some x, Some y =>
              let '(c, h1) := make_shared (f x y) h in
              match operator_loop f ldata' rdata' h1 with
              | Some (cs, h2) => Some (c :: cs, h2)
              | None => None
              end
          | _, _ => None
          end
      end
  end.

Definition operator_fn {T : Type} `{Elem T} (op : Operator) : T -> T -> T :=
  match op with
  | OP_ADD => e_add
  | OP_SUB => e_sub
  | OP_MUL => e_mul
  | OP_DIV => e_div
  end.

(** [operator_impl]; the [default] branch of its [switch] is not reachable
    with the four enumerators. *)
Definition operator_impl {T : Type} `{Elem T} (this rhs : ndarray) (op : Operator)
    (h : Heap T) : outcome T ndarray :=
  match braodcast (shape this) (shape rhs) true (data_ this) (data_ rhs) [] with
  | Undef => Undefined
  | Raise e => Throw e h
  | Ok None => Throw ValueError h
  | Ok (Some (ldata, rdata, shape)) =>
      match operator_loop (operator_fn op) ldata rdata h with
      | Some (data, h') => Ret (mk_ndarray shape data) h'
      | None => Undefined
      end
  end.

(** The four binary operators on two arrays. *)
Definition add {T : Type} `{Elem T} (lhs rhs : ndarray) := operator_impl lhs rhs OP_ADD.
Definition sub {T : Type} `{Elem T} (lhs rhs : ndarray) := operator_impl lhs rhs OP_SUB.
Definition mul {T : Type} `{Elem T} (lhs rhs : ndarray) := operator_impl lhs rhs OP_MUL.
Definition div {T : Type} `{Elem T} (lhs rhs : ndarray) := operator_impl lhs rhs OP_DIV.

(** Sequencing of two calls: an exception of the first leaves with the arena
    the first call left. *)
Definition and_then {T A B : Type} (o : outcome T A) (k : A -> Heap T -> outcome T B)
  : outcome T B :=
  match o with
  | Ret a h => k a h
  | Throw e h => Throw e h
  | Undefined => Undefined
  end.

(** The operators with a scalar on one side: the scalar, already converted
    to [T], is promoted with [scalar] and handed to [operator_impl]. *)
Definition scalar_op_l {T : Type} `{Elem T} (op : Operator) (lhs : T) (rhs : ndarray)
    (h : Heap T) : outcome T ndarray :=
  and_then (scalar lhs h) (fun s => operator_impl s rhs op).

Definition scalar_op_r {T : Type} `{Elem T} (op : Operator) (lhs : ndarray) (rhs : T)
    (h : Heap T) : outcome T ndarray :=
  and_then (scalar rhs h) (fun s => operator_impl lhs s op).

(** [operator-()]: multiplication by [scalar(-1)]. *)
Definition neg {T : Type} `{Elem T} (this : ndarray) (h : Heap T) : outcome T ndarray :=
  scalar_op_r OP_MUL this (e_of_int (-1)) h.

(** Assignment of a scalar: the assignment of [scalar(rhs)]. *)
Definition assign_scalar {T : Type} (this : ndarray) (rhs : T) (h : Heap T)
  : outcome T ndarray :=
  and_then (scalar rhs h) (fun s => assign this s).

(** ** Printing *)

(** What [operator<<] hands to the stream, piece by piece: the texts
    ["array("], ["["], ["],"] and [")"], an element followed by [','], and
    the bare value of a rank-0 array. *)
Inductive token (T : Type) : Type :=
  | tok_array_open
  | tok_open
  | tok_elem (v : T)
  | tok_close
  | tok_array_close
  | tok_value (v : T).
Arguments tok_array_open {T}.
Arguments tok_open {T}.
Arguments tok_elem {T} v.
Arguments tok_close {T}.
Arguments tok_array_close {T}.
Arguments tok_value {T} v.

(** The heads of the three [for] loops in the body of the [do] loop. *)
Inductive loop_head : Type := at_push | at_elem | at_close.

(** The local variables of [operator<<]: the vector [s] with its back
    first, the position [i], and what the stream has received. *)
Record pstate (T : Type) : Type := mk_pstate {
  p_head : loop_head;
  p_s : list Z;
  p_i : nat;
  p_out : list (token T)
}.
Arguments mk_pstate {T} p_head p_s p_i p_out.
Arguments p_head {T} p.
Arguments p_s {T} p.
Arguments p_i {T} p.
Arguments p_out {T} p.

Inductive pstep (T : Type) : Type :=
  | Next (st : pstate T)
  | Done (out : list (token T))
  | Stuck.
Arguments Next {T} st.
Arguments Done {T} out.
Arguments Stuck {T}.

(** One test of a loop condition with the iteration that follows it.
    [Done] is the [break] out of the third loop with [s] empty, which also
    ends the [do] loop; leaving the third loop with [s] not empty starts the
    body of the [do] loop again.  [back()] of an empty vector and a read
    outside [shape_] or [data_] are undefined. *)
Definition print_step {T : Type} (ary : ndarray) (h : Heap T) (st : pstate T) : pstep T :=
  let '(mk_pstate head s i out) := st in
  match head with
  | at_push =>
      if bool_decide (Z.of_nat (length s) < ndim ary) then
        match shape_ ary !! length s with
        | Some d => Next (mk_pstate at_push (d :: s) i (out ++ [tok_open]))
        | None => Stuck
        end
      else Next (mk_pstate at_elem s i out)
  | at_elem =>
      match s with
      | [] => Stuck
      | c :: s' =>
          if bool_decide (c > 0) then
            match data_ ary !! i with
            | Some cell =>
                match h !! cell with
                | Some v => Next (mk_pstate at_elem (c - 1 :: s') (S i) (out ++ [tok_elem v]))
                | None => Stuck
                end
            | None => Stuck
            end
          else Next (mk_pstate at_close s i out)
      end
  | at_close =>
      match s with
      | [] => Stuck
      | c :: s' =>
          if bool_decide (c = 0) then
            match s' with
            | [] => Done (out ++ [tok_close])
            | c' :: s'' => Next (mk_pstate at_close (c' - 1 :: s'') i (out ++ [tok_close]))
            end
          else Next (mk_pstate at_push s i out)
      end
  end.

(** The [do] loop, run for at most [fuel] loop tests; [None] when they do
    not suffice. *)
Fixpoint print_run {T : Type} (fuel : nat) (ary : ndarray) (h : Heap T) (st : pstate T)
  : option (result (list (token T))) :=
  match fuel with
  | O => None
  | S fuel' =>
      match print_step ary h st with
      | Next st' => print_run fuel' ary h st'
      | Done out => Some (Ok out)
      | Stuck => Some Undef
      end
  end.

(** [operator<<]: what the stream receives.  A rank-0 array with a number
    of cells other than one writes to [std::cerr] only. *)
Definition stream_insert {T : Type} (fuel : nat) (ary : ndarray) (h : Heap T)
  : option (result (list (token T))) :=
  if bool_decide (ndim ary = 0) then
    if bool_decide (size ary = 1) then
      match to_scalar ary h with
      | Ret v _ => Some (Ok [tok_value v])
      | Throw e _ => Some (Raise e)
      | Undefined => Some Undef
      end
    else Some (Ok [])
  else
    match print_run fuel ary h (mk_pstate at_push [] 0 [tok_array_open]) with
    | Some (Ok out) => Some (Ok (out ++ [tok_array_close]))
    | r => r
    end.

(** ** Specification-level notions *)

(** An array as the data model wants it: no negative dimension and as many
    cells as the product of the shape. *)
Record valid (a : ndarray) : Prop := mk_valid {
  valid_dims : Forall (fun d => 0 ≤ d) (shape_ a);
  valid_size : size a = get_size (shape_ a)
}.

(** Every handle of the array denotes an allocated cell of the arena. *)
Definition live {T : Type} (h : Heap T) (a : ndarray) : Prop :=
  Forall (fun c => c < length h)%nat (data_ a).

(** The rule for one pair of dimension sizes. *)
Definition align_axis (lhsExpandable : bool) (a b : Z) : option Z :=
  if bool_decide (a = b) then Some a
  else if bool_decide (b = 1) then Some a
  else if lhsExpandable && bool_decide (a = 1) then Some b
  else None.

(** The pairs met when both shapes are walked from the trailing axis
    backward, a missing leading axis counting as size 1. *)
Definition trailing_pairs (shapeA shapeB : Shape) : list (Z * Z) :=
  let n := (length shapeA `max` length shapeB)%nat in
  zip (rev shapeA ++ replicate (n - length shapeA) 1)
      (rev shapeB ++ replicate (n - length shapeB) 1).

(** The aligned shape: the pair-wise results, reversed back to
    leading-to-trailing order; [None] when some pair has no result. *)
Definition align (shapeA shapeB : Shape) (lhsExpandable : bool) : option Shape :=
  match mapM (fun ab => align_axis lhsExpandable ab.1 ab.2) (trailing_pairs shapeA shapeB) with
  | Some ds => Some (rev ds)
  | None => None
  end.

(** A shape with its missing leading axes written as 1. *)
Definition pad_shape (n : nat) (s : Shape) : Shape :=
  replicate (n - length s) 1 ++ s.

(** The number of cells of a shape, as a length. *)
Definition nsize (s : Shape) : nat := Z.to_nat (get_size s).

(** The first [q] consecutive blocks of [n] elements. *)
Fixpoint chunks {A : Type} (q n : nat) (l : list A) : list (list A) :=
  match q with
  | O => []
  | S q' => take n l :: chunks q' n (drop n l)
  end.

(** The row-major cell sequence of an operand of shape [from] read at the
    shape [to] of the same rank: along a leading axis on which both agree,
    each of the sub-blocks is read at the remaining axes in turn; along a
    leading axis that grows from 1 to [r], the one sub-block is read at the
    remaining axes and met [r] times. *)
Fixpoint broadcast_to {A : Type} (from to : Shape) (cells : list A) : list A :=
  match from, to with
  | o :: from', r :: to' =>
      if bool_decide (o = r)
      then concat (broadcast_to from' to' <$> chunks (Z.to_nat o) (nsize from') cells)
      else concat (replicate (Z.to_nat r) (broadcast_to from' to' cells))
  | _, _ => cells
  end.

(** The operand of [shape] as it is read at the aligned shape [s]. *)
Definition broadcast_cells {A : Type} (shape s : Shape) (cells : list A) : list A :=
  broadcast_to (pad_shape (length s) shape) s cells.

(** [from] can be read at [to]: axis by axis the sizes agree or the operand
    has size 1, and no size is negative. *)
Definition grows_to (from to : Shape) : Prop :=
  Forall2 (fun o r => 0 ≤ r ∧ (o = r ∨ o = 1)) from to.

(** The loop of [braodcast] over the list of the pairs [(ldim, rdim)] that
    the two iterators deliver. *)
Fixpoint loop_pairs (is_lhs_mutable : bool) (ps : list (Z * Z)) (st : bstate)
  : result (option bstate) :=
  match ps with
  | [] => Ok (Some st)
  | p :: ps' =>
      match braodcast_body is_lhs_mutable p.1 p.2 st with
      | Ok (Some st') => loop_pairs is_lhs_mutable ps' st'
      | r => r
      end
  end.

(** What the loop of [braodcast] maintains: [lproc], [rproc] and [resproc]
    are the axes already visited of the two operands and of the result
    (leading axis first), [ql] and [qr] the number of blocks the axes not yet
    visited split the original data into. *)
Record binv (ldata0 rdata0 : Data) (lproc rproc resproc : Shape) (ql qr : nat)
    (st : bstate) : Prop := mk_binv {
  inv_lsize : b_lsize st = get_size resproc;
  inv_rsize : b_rsize st = get_size resproc;
  inv_ldata : b_ldata st
              = concat (broadcast_to lproc resproc <$> chunks ql (nsize lproc) ldata0);
  inv_rdata : b_rdata st
              = concat (broadcast_to rproc resproc <$> chunks qr (nsize rproc) rdata0);
  inv_shape : b_shape st = rev resproc;
  inv_lgrow : grows_to lproc resproc;
  inv_rgrow : grows_to rproc resproc;
  inv_llen : length ldata0 = (ql * nsize lproc)%nat;
  inv_rlen : length rdata0 = (qr * nsize rproc)%nat
}.

(** The contents of a sequence of cells, in order. *)
Definition contents {T : Type} (h : Heap T) (cells : Data) : list T :=
  omap (fun c => h !! c) cells.

(** The right-hand shape reaches the target shape by growing right-hand axes
    only: on every trailing pair the right-hand size is the target's or 1. *)
Definition rhs_expands_to (target rhs : Shape) : Prop :=
  Forall (fun ab => ab.2 = ab.1 ∨ ab.2 = 1) (trailing_pairs target rhs).

(** A range bound after negative-index resolution. *)
Definition resolved (dim bound : Z) : Z :=
  if bool_decide (bound < 0) then bound + dim else bound.

(** The two bounds of a range, resolved and clamped to [[0, dim]]. *)
Definition range_lo (dim first : Z) : Z := Z.min dim (Z.max 0 (resolved dim first)).
Definition range_hi (dim second : Z) : Z := Z.max 0 (Z.min dim (resolved dim second)).

(** The shape of a slice, from the shape of the sliced array: an index drops
    the leading axis; a range that selects no index, or only sub-arrays
    without cells, gives the shape [[0]] of the default array. *)
Fixpoint slice_shape (args : list slice_arg) (shape : Shape) : Shape :=
  match args with
  | [] => shape
  | Idx _ :: args' => slice_shape args' (tail shape)
  | Range first second :: args' =>
      let dim := hd 0 shape in
      let n := range_hi dim second - range_lo dim first in
      let sub := slice_shape args' (tail shape) in
      if bool_decide (n ≤ 0 ∨ get_size sub = 0) then [0] else n :: sub
  end.

(** The content re-read at the flat position [j] of an array. *)
Definition read {T : Type} (h : Heap T) (a : ndarray) (j : nat) : option T :=
  data_ a !! j ≫= fun c => h !! c.

Definition is_range (arg : slice_arg) : Prop :=
  match arg with
  | Range _ _ => True
  | Idx _ => False
  end.

(** What [slice_impl] builds from the per-index sub-arrays of a range. *)
Definition gather (slices : list ndarray) : ndarray :=
  let shape := get_shape slices in
  if bool_decide (shape = []) then ndarray_default
  else
    let data := flatten_data slices in
    if bool_decide (data = []) then ndarray_default
    else mk_ndarray shape data.

(** The row-major position of a multi-index in a shape. *)
Fixpoint flat_index (shape : Shape) (idx : list nat) : nat :=
  match shape, idx with
  | _ :: shape', i :: idx' => (i * nsize shape' + flat_index shape' idx')%nat
  | _, _ => 0%nat
  end.

(** The multi-index of the operand cell met at a multi-index of the aligned
    shape: the same coordinate on an axis where the sizes agree, 0 on an axis
    of the operand that has grown from 1. *)
Fixpoint source_index (from to : Shape) (idx : list nat) : list nat :=
  match from, to, idx with
  | o :: from', r :: to', i :: idx' =>
      (if bool_decide (o = r) then i else 0%nat) :: source_index from' to' idx'
  | _, _, _ => []
  end.

(** A multi-index after negative-index resolution, axis by axis. *)
Definition resolve_all (shape : Shape) (indices : list Z) : list nat :=
  zip_with (fun d i => Z.to_nat (resolved d i)) shape indices.

(** The nested rendering of row-major values at a shape: a bracket pair
    around the renderings of the sub-blocks, an element for each value at
    rank 0. *)
Fixpoint render {T : Type} (s : Shape) (vals : list T) : list (token T) :=
  match s with
  | [] => tok_elem <$> vals
  | d :: s' =>
      tok_open :: concat (render s' <$> chunks (Z.to_nat d) (nsize s') vals) ++ [tok_close]
  end.

(** The values among the pieces received by the stream, in order. *)
Definition printed_values {T : Type} (out : list (token T)) : list T :=
  omap (fun t => match t with
                 | tok_elem v | tok_value v => Some v
                 | _ => None
                 end) out.

(** [print_run] from the outcome of a step on. *)
Definition resume {T : Type} (fuel : nat) (ary : ndarray) (h : Heap T) (p : pstep T)
  : option (result (list (token T))) :=
  match p with
  | Next st => print_run fuel ary h st
  | Done out => Some (Ok out)
  | Stuck => Some Undef
  end.

(** Where the third loop stands once the bracket of a sub-array is closed
    and popped: over when the vector is empty, and otherwise at its test
    again, the count of the enclosing axis decremented. *)
Definition finish {T : Type} (s : list Z) (i : nat) (out : list (token T)) : pstep T :=
  match s with
  | [] => Done out
  | c :: s' => Next (mk_pstate at_close (c - 1 :: s') i out)
  end.

(** * Properties *)

(** ** Sizes and allocation *)
Lemma foldl_mul (s : Shape) : forall a, foldl Z.mul a s = a * foldl Z.mul 1 s.
Proof.
  induction s as [|d s IH]; intros a; simpl; [lia|].
  rewrite (IH (a * d)), (IH (1 * d)). lia.
Qed.

Lemma get_size_nil : get_size [] = 1.
Proof. reflexivity. Qed.

Lemma get_size_cons d s : get_size (d :: s) = d * get_size s.
Proof. unfold get_size. simpl. rewrite foldl_mul. lia. Qed.

Lemma get_size_app s1 s2 : get_size (s1 ++ s2) = get_size s1 * get_size s2.
Proof.
  induction s1 as [|d s1 IH]; simpl.
  - rewrite get_size_nil. lia.
  - rewrite !get_size_cons, IH. lia.
Qed.

Lemma get_size_nonneg s : Forall (fun d => 0 ≤ d) s -> 0 ≤ get_size s.
Proof.
  induction 1 as [|d s Hd _ IH]; [rewrite get_size_nil; lia|].
  rewrite get_size_cons. lia.
Qed.

Lemma get_size_replicate_1 n : get_size (replicate n 1) = 1.
Proof. induction n as [|n IH]; [done|]. simpl. rewrite get_size_cons, IH. lia. Qed.

Lemma transform_data_spec {T} (ary : list T) : forall h,
  transform_data ary h = (seq (length h) (length ary), h ++ ary).
Proof.
  induction ary as [|x ary IH]; intros h; simpl.
  - by rewrite app_nil_r.
  - rewrite IH. rewrite length_app. simpl.
    replace (length h + 1)%nat with (S (length h)) by lia.
    by rewrite <- app_assoc.
Qed.

Section chunks.
Context {A : Type}.
Implicit Types (l : list A) (q n : nat).

Lemma length_chunks q n l : length (chunks q n l) = q.
Proof. revert l. induction q as [|q IH]; intros l; simpl; [done|]. by rewrite IH. Qed.

Lemma concat_chunks q n l : concat (chunks q n l) = take (q * n) l.
Proof.
  revert l. induction q as [|q IH]; intros l; simpl; [done|].
  rewrite IH. apply take_take_drop.
Qed.

Lemma concat_chunks_all q n l : length l = (q * n)%nat -> concat (chunks q n l) = l.
Proof. intros Hl. rewrite concat_chunks. apply take_ge. lia. Qed.

Lemma Forall_length_chunks q n l :
  (q * n ≤ length l)%nat -> Forall (fun b => length b = n) (chunks q n l).
Proof.
  revert l. induction q as [|q IH]; intros l Hl; simpl; constructor.
  - rewrite length_take. lia.
  - apply IH. rewrite length_drop. lia.
Qed.

Lemma chunks_add q1 q2 n l :
  chunks (q1 + q2) n l = chunks q1 n l ++ chunks q2 n (drop (q1 * n) l).
Proof.
  revert l. induction q1 as [|q1 IH]; intros l; simpl; [done|].
  rewrite IH, drop_drop. done.
Qed.

Lemma chunks_take q n m l : (q * n ≤ m)%nat -> chunks q n (take m l) = chunks q n l.
Proof.
  revert m l. induction q as [|q IH]; intros m l Hm; simpl; [done|].
  rewrite take_take, Nat.min_l by lia.
  rewrite skipn_firstn_comm, IH by lia. done.
Qed.

Lemma chunks_mul q o n l :
  chunks (q * o) n l = concat (chunks o n <$> chunks q (o * n) l).
Proof.
  revert l. induction q as [|q IH]; intros l; simpl; [done|].
  rewrite chunks_add, IH, chunks_take by lia. done.
Qed.

Lemma chunks_1 n l : length l = n -> chunks 1 n l = [l].
Proof. intros Hl. simpl. rewrite take_ge by lia. done. Qed.

Lemma Forall_chunks (P : A -> Prop) q n l :
  Forall P l -> Forall (Forall P) (chunks q n l).
Proof.
  revert l. induction q as [|q IH]; intros l Hl; simpl; constructor.
  - by apply Forall_take.
  - apply IH. by apply Forall_drop.
Qed.
End chunks.

Lemma concat_nil_Forall {A} (ls : list (list A)) :
  Forall (fun b => length b = 0%nat) ls -> concat ls = [].
Proof.
  induction 1 as [|b ls Hb _ IH]; simpl; [done|].
  apply nil_length_inv in Hb. by rewrite Hb, IH.
Qed.

Lemma concat_fmap_concat {A B} (f : list A -> list B) (ls : list (list (list A))) :
  concat (f <$> concat ls) = concat ((fun x => concat (f <$> x)) <$> ls).
Proof.
  induction ls as [|x ls IH]; simpl; [done|].
  rewrite fmap_app, concat_app, IH. done.
Qed.

(** *** [expand_data] *)

(** The counter of [expand_data_from] is not a limit: once it is at least
    the number of cells left, its value does not matter. *)
Lemma expand_data_from_fuel rest n k : forall fuel fuel' new_data,
  (length rest ≤ fuel)%nat -> (length rest ≤ fuel')%nat ->
  expand_data_from fuel rest n k new_data = expand_data_from fuel' rest n k new_data.
Proof.
  remember (length rest) as m eqn:Hm. revert rest Hm.
  induction (lt_wf m) as [m _ IH]. intros rest -> fuel fuel' acc Hf Hf'.
  destruct rest as [|c rest]; [by destruct fuel, fuel'|].
  destruct fuel as [|fuel]; [simpl in Hf; lia|].
  destruct fuel' as [|fuel']; [simpl in Hf'; lia|].
  cbn [expand_data_from]. case_bool_decide as Hn; [done|].
  apply (IH (length (drop (Z.to_nat n) (c :: rest)))); [|done|..];
    rewrite length_drop; simpl in *; lia.
Qed.

Lemma expand_data_from_blocks (n : nat) (k : Z) (blocks : list Data) :
  (0 < n)%nat ->
  Forall (fun b => length b = n) blocks ->
  forall fuel new_data,
    (length blocks ≤ fuel)%nat ->
    expand_data_from fuel (concat blocks) (Z.of_nat n) k new_data
    = Ok (new_data ++ concat ((fun b => concat (replicate (Z.to_nat k) b)) <$> blocks)).
Proof.
  intros Hn Hbl. induction Hbl as [|b blocks Hb _ IH]; intros fuel acc Hfuel.
  - simpl. destruct fuel; simpl; by rewrite app_nil_r.
  - cbn [concat fmap list_fmap].
    destruct fuel as [|fuel]; [simpl in Hfuel; lia|].
    destruct b as [|c b]; [simpl in Hb; lia|].
    cbn [app expand_data_from].
    rewrite bool_decide_eq_false_2; last first.
    { simpl. rewrite length_app. simpl in Hb. lia. }
    rewrite Nat2Z.id.
    change (c :: b ++ concat blocks) with ((c :: b) ++ concat blocks).
    rewrite take_app_length', drop_app_length' by done.
    rewrite IH by (simpl in Hfuel; lia).
    by rewrite <- app_assoc.
Qed.

(** On data made of blocks of [n] cells, [expand_data] is defined and repeats
    each block [k] times. *)
Lemma expand_data_blocks (n : nat) (k : Z) (blocks : list Data) :
  Forall (fun b => length b = n) blocks ->
  expand_data (concat blocks) (Z.of_nat n) k
  = Ok (concat ((fun b => concat (replicate (Z.to_nat k) b)) <$> blocks)).
Proof.
  intros Hbl. destruct (decide (n = 0%nat)) as [->|Hn].
  - rewrite (concat_nil_Forall blocks) by done.
    rewrite concat_nil_Forall; [done|].
    apply Forall_fmap. eapply Forall_impl; [|exact Hbl].
    intros b Hb. simpl. apply nil_length_inv in Hb. subst b.
    induction (Z.to_nat k) as [|k' IHk]; simpl; done.
  - unfold expand_data. rewrite expand_data_from_blocks; try done; try lia.
    rewrite length_concat.
    clear -Hbl Hn. induction Hbl as [|b bl Hb _ IH]; simpl; lia.
Qed.

(** *** An operand read at a larger shape *)

Lemma nsize_nil : nsize [] = 1%nat.
Proof. reflexivity. Qed.

Lemma nsize_cons d s :
  0 ≤ d -> Forall (fun d => 0 ≤ d) s -> nsize (d :: s) = (Z.to_nat d * nsize s)%nat.
Proof.
  intros Hd Hs. unfold nsize. rewrite get_size_cons.
  apply Z2Nat.inj_mul; [done|]. by apply get_size_nonneg.
Qed.

Lemma get_size_nsize s : Forall (fun d => 0 ≤ d) s -> get_size s = Z.of_nat (nsize s).
Proof. intros Hs. unfold nsize. rewrite Z2Nat.id; [done|]. by apply get_size_nonneg. Qed.

Lemma length_concat_uniform {A} (m : nat) (ls : list (list A)) :
  Forall (fun b => length b = m) ls -> length (concat ls) = (length ls * m)%nat.
Proof. induction 1 as [|b ls Hb _ IH]; simpl; [done|]. rewrite length_app. lia. Qed.

Lemma grows_to_nonneg_to src dst : grows_to src dst -> Forall (fun d => 0 ≤ d) dst.
Proof. induction 1 as [|o r src dst [Hr _] _ IH]; constructor; done. Qed.

Lemma grows_to_nonneg_from src dst : grows_to src dst -> Forall (fun d => 0 ≤ d) src.
Proof. induction 1 as [|o r src dst [Hr Ho] _ IH]; constructor; [lia|done]. Qed.

Lemma length_broadcast_to {A} src dst : grows_to src dst -> forall cells : list A,
  length cells = nsize src -> length (broadcast_to src dst cells) = nsize dst.
Proof.
  induction 1 as [|o r src dst [Hr Ho] Hg IH]; intros cells Hlen; [done|].
  pose proof (grows_to_nonneg_to _ _ Hg) as Hto.
  pose proof (grows_to_nonneg_from _ _ Hg) as Hfrom.
  simpl. rewrite (nsize_cons r) by done.
  case_bool_decide as Hor.
  - subst r. rewrite nsize_cons in Hlen by done.
    rewrite (length_concat_uniform (nsize dst)).
    + by rewrite length_fmap, length_chunks.
    + apply Forall_fmap. eapply Forall_impl; [|apply Forall_length_chunks; lia].
      intros b Hb. simpl. by apply IH.
  - destruct Ho as [-> | ->]; [done|].
    rewrite nsize_cons in Hlen by done.
    rewrite (length_concat_uniform (nsize dst)).
    + by rewrite length_replicate.
    + apply Forall_replicate. apply IH. rewrite Hlen. simpl. lia.
Qed.

Lemma Forall_broadcast_to {A} (P : A -> Prop) src : forall dst (cells : list A),
  Forall P cells -> Forall P (broadcast_to src dst cells).
Proof.
  induction src as [|o src IH]; intros dst cells Hc; [done|].
  destruct dst as [|r dst]; [done|]. simpl.
  case_bool_decide.
  - apply Forall_concat, Forall_fmap.
    eapply Forall_impl; [|apply (Forall_chunks P); exact Hc].
    intros b Hb. simpl. by apply IH.
  - apply Forall_concat, Forall_replicate. by apply IH.
Qed.

(** *** One operand across one iteration of the loop *)

Lemma side_keep (d : Z) (proc resproc : Shape) (q : nat) (data0 : Data) :
  0 ≤ d -> Forall (fun d => 0 ≤ d) proc ->
  concat (broadcast_to proc resproc <$> chunks (q * Z.to_nat d) (nsize proc) data0)
  = concat (broadcast_to (d :: proc) (d :: resproc) <$> chunks q (nsize (d :: proc)) data0).
Proof.
  intros Hd Hproc. rewrite nsize_cons by done.
  rewrite chunks_mul, concat_fmap_concat, <- list_fmap_compose.
  f_equal. apply list_fmap_ext. intros _ blk _. simpl.
  by rewrite bool_decide_eq_true_2.
Qed.

Lemma side_grow (r : Z) (proc resproc : Shape) (q : nat) (data0 : Data) :
  r ≠ 1 -> grows_to proc resproc ->
  length data0 = (q * Z.to_nat 1 * nsize proc)%nat ->
  expand_data
    (concat (broadcast_to proc resproc <$> chunks (q * Z.to_nat 1) (nsize proc) data0))
    (get_size resproc) r
  = Ok (concat (broadcast_to (1 :: proc) (r :: resproc)
                  <$> chunks q (nsize (1 :: proc)) data0)).
Proof.
  intros Hr Hg. change (Z.to_nat 1) with 1%nat. rewrite Nat.mul_1_r. intros Hlen.
  pose proof (grows_to_nonneg_to _ _ Hg) as Hto.
  pose proof (grows_to_nonneg_from _ _ Hg) as Hfrom.
  rewrite (get_size_nsize resproc) by done.
  rewrite expand_data_blocks.
  - rewrite nsize_cons by done.
    change (Z.to_nat 1) with 1%nat. rewrite Nat.mul_1_l.
    rewrite <- list_fmap_compose. do 2 f_equal.
    apply list_fmap_ext. intros _ blk _. simpl.
    rewrite bool_decide_eq_false_2 by congruence. done.
  - apply Forall_fmap. eapply Forall_impl; [|apply Forall_length_chunks; lia].
    intros b Hb. simpl. by apply length_broadcast_to.
Qed.

(** *** The loop of [braodcast] *)

Local Ltac bsize := rewrite ?get_size_cons, ?nsize_cons by done; lia.
Local Ltac bgrow := constructor; [split; [done|tauto]|done].

Lemma braodcast_body_spec m l r ld rd lproc rproc resproc ql qr st :
  0 ≤ l -> 0 ≤ r ->
  binv ld rd lproc rproc resproc (ql * Z.to_nat l) (qr * Z.to_nat r) st ->
  match align_axis m l r with
  | None => braodcast_body m l r st = Ok None
  | Some d =>
      exists st', braodcast_body m l r st = Ok (Some st')
                  ∧ binv ld rd (l :: lproc) (r :: rproc) (d :: resproc) ql qr st'
  end.
Proof.
  intros Hl Hr [Hls Hrs Hld Hrd Hsh Hlg Hrg Hll Hrl].
  destruct st as [lsize rsize ldata rdata shape]. simpl in *. subst.
  pose proof (grows_to_nonneg_from _ _ Hlg) as Hlproc.
  pose proof (grows_to_nonneg_from _ _ Hrg) as Hrproc.
  assert (0 ≤ 1) as H01 by lia.
  unfold align_axis, braodcast_body.
  destruct (decide (l = r)) as [->|Hne].
  { rewrite (bool_decide_eq_false_2 (r ≠ r)) by (intros Hc; by apply Hc).
    rewrite bool_decide_eq_true_2 by done.
    eexists. split; [done|].
    split; cbn [b_lsize b_rsize b_ldata b_rdata b_shape];
      [bsize | bsize | by apply side_keep | by apply side_keep | done
      | bgrow | bgrow | bsize | bsize]. }
  rewrite (bool_decide_eq_true_2 (l ≠ r)) by done.
  rewrite (bool_decide_eq_false_2 (l = r)) by done.
  destruct (decide (r = 1)) as [->|Hr1].
  { rewrite bool_decide_eq_true_2 by done.
    rewrite side_grow by done. cbn [mbind result_bind].
    eexists. split; [done|].
    split; cbn [b_lsize b_rsize b_ldata b_rdata b_shape];
      [bsize | bsize | by apply side_keep | done | done
      | bgrow | bgrow | bsize | bsize]. }
  rewrite (bool_decide_eq_false_2 (r = 1)) by done.
  destruct m; cbn [andb]; [|done].
  destruct (decide (l = 1)) as [->|Hl1].
  { rewrite bool_decide_eq_true_2 by done.
    rewrite side_grow by done. cbn [mbind result_bind].
    eexists. split; [done|].
    split; cbn [b_lsize b_rsize b_ldata b_rdata b_shape];
      [bsize | bsize | done | by apply side_keep | done
      | bgrow | bgrow | bsize | bsize]. }
  by rewrite bool_decide_eq_false_2.
Qed.

Lemma loop_pairs_spec m ld rd ps : forall lproc rproc resproc st,
  Forall (fun p => 0 ≤ p.1 ∧ 0 ≤ p.2) ps ->
  binv ld rd lproc rproc resproc (nsize (ps.*1)) (nsize (ps.*2)) st ->
  match mapM (fun ab => align_axis m ab.1 ab.2) ps with
  | None => loop_pairs m ps st = Ok None
  | Some ds =>
      exists st', loop_pairs m ps st = Ok (Some st')
                  ∧ binv ld rd (rev (ps.*1) ++ lproc) (rev (ps.*2) ++ rproc)
                      (rev ds ++ resproc) 1 1 st'
  end.
Proof.
  induction ps as [|[l r] ps IH]; intros lproc rproc resproc st Hnn Hinv.
  - simpl. eexists. split; [done|]. exact Hinv.
  - inversion Hnn as [|? ? [Hl Hr] Hnn']; subst. clear Hnn. rename Hnn' into Hnn.
    simpl in Hl, Hr.
    assert (Forall (fun d => 0 ≤ d) (ps.*1) ∧ Forall (fun d => 0 ≤ d) (ps.*2)) as [H1 H2].
    { split; apply Forall_fmap; (eapply Forall_impl; [|exact Hnn]); simpl; tauto. }
    cbn [fmap list_fmap] in Hinv. simpl in Hinv.
    rewrite !nsize_cons in Hinv by done.
    rewrite (Nat.mul_comm (Z.to_nat l)), (Nat.mul_comm (Z.to_nat r)) in Hinv.
    pose proof (braodcast_body_spec m l r _ _ _ _ _ _ _ _ Hl Hr Hinv) as Hbody.
    cbn [mapM loop_pairs fst snd]. simpl.
    destruct (align_axis m l r) as [d|].
    + destruct Hbody as (st' & -> & Hinv').
      specialize (IH _ _ _ _ Hnn Hinv').
      destruct (mapM _ ps) as [ds|]; simpl.
      * destruct IH as (st'' & -> & Hinv'').
        eexists. split; [done|].
        rewrite <- !app_assoc. exact Hinv''.
      * done.
    + by rewrite Hbody.
Qed.

(** *** The two reverse iterators *)

Lemma braodcast_loop_r_pairs m j : forall st,
  braodcast_loop_r m j st = loop_pairs m (zip (replicate (length j) 1) j) st.
Proof.
  induction j as [|r j IH]; intros st; simpl; [done|].
  destruct (braodcast_body m 1 r st) as [[st'|]| |]; auto.
Qed.

Lemma braodcast_loop_pairs m i : forall j st,
  braodcast_loop m i j st
  = loop_pairs m (zip (i ++ replicate (length j - length i) 1)
                      (j ++ replicate (length i - length j) 1)) st.
Proof.
  induction i as [|l i IH]; intros j st.
  - simpl. rewrite Nat.sub_0_r, app_nil_r. apply braodcast_loop_r_pairs.
  - destruct j as [|r j]; simpl.
    + destruct (braodcast_body m l 1 st) as [[st'|]| |]; [|reflexivity..].
      rewrite IH. simpl. by rewrite Nat.sub_0_r.
    + destruct (braodcast_body m l r st) as [[st'|]| |]; [|reflexivity..].
      by rewrite IH.
Qed.

Lemma braodcast_loop_trailing_pairs m lshape rshape st :
  braodcast_loop m (rev lshape) (rev rshape) st
  = loop_pairs m (trailing_pairs lshape rshape) st.
Proof.
  rewrite braodcast_loop_pairs. unfold trailing_pairs. rewrite !length_rev.
  do 3 f_equal; f_equal; lia.
Qed.

(** *** [braodcast] against the alignment rule *)

Lemma rev_replicate {A} n (x : A) : rev (replicate n x) = replicate n x.
Proof. rewrite rev_alt. apply reverse_replicate. Qed.

Lemma get_size_rev s : get_size (rev s) = get_size s.
Proof.
  induction s as [|d s IH]; simpl; [done|].
  rewrite get_size_app, !get_size_cons, IH, get_size_nil. lia.
Qed.

Lemma length_trailing_pairs A B :
  length (trailing_pairs A B) = (length A `max` length B)%nat.
Proof.
  unfold trailing_pairs.
  rewrite length_zip, !length_app, !length_rev, !length_replicate. lia.
Qed.

Lemma trailing_pairs_fst A B :
  rev ((trailing_pairs A B).*1) = pad_shape (length A `max` length B) A.
Proof.
  unfold trailing_pairs, pad_shape. rewrite fst_zip.
  - by rewrite rev_app_distr, rev_involutive, rev_replicate.
  - rewrite !length_app, !length_rev, !length_replicate. lia.
Qed.

Lemma trailing_pairs_snd A B :
  rev ((trailing_pairs A B).*2) = pad_shape (length A `max` length B) B.
Proof.
  unfold trailing_pairs, pad_shape. rewrite snd_zip.
  - by rewrite rev_app_distr, rev_involutive, rev_replicate.
  - rewrite !length_app, !length_rev, !length_replicate. lia.
Qed.

Lemma pad_shape_nonneg n s :
  Forall (fun d => 0 ≤ d) s -> Forall (fun d => 0 ≤ d) (pad_shape n s).
Proof. intros Hs. apply Forall_app. split; [by apply Forall_replicate|done]. Qed.

Lemma get_size_pad_shape n s : get_size (pad_shape n s) = get_size s.
Proof. unfold pad_shape. rewrite get_size_app, get_size_replicate_1. lia. Qed.

Lemma nsize_pad_shape n s : nsize (pad_shape n s) = nsize s.
Proof. unfold nsize. by rewrite get_size_pad_shape. Qed.

Lemma trailing_pairs_nonneg A B :
  Forall (fun d => 0 ≤ d) A -> Forall (fun d => 0 ≤ d) B ->
  Forall (fun p => 0 ≤ p.1 ∧ 0 ≤ p.2) (trailing_pairs A B).
Proof.
  intros HA HB.
  pose proof (pad_shape_nonneg (length A `max` length B) _ HA) as HA'.
  pose proof (pad_shape_nonneg (length A `max` length B) _ HB) as HB'.
  rewrite <- trailing_pairs_fst in HA'. rewrite <- trailing_pairs_snd in HB'.
  apply Forall_rev in HA', HB'. rewrite rev_involutive in HA', HB'.
  revert HA' HB'. generalize (trailing_pairs A B). intros ps.
  induction ps as [|p ps IH]; intros H1 H2; [constructor|].
  inversion H1; inversion H2; subst. constructor; auto.
Qed.

Lemma nsize_trailing_fst A B : nsize ((trailing_pairs A B).*1) = nsize A.
Proof.
  rewrite <- (nsize_pad_shape (length A `max` length B) A), <- trailing_pairs_fst.
  unfold nsize. by rewrite get_size_rev.
Qed.

Lemma nsize_trailing_snd A B : nsize ((trailing_pairs A B).*2) = nsize B.
Proof.
  rewrite <- (nsize_pad_shape (length A `max` length B) B), <- trailing_pairs_snd.
  unfold nsize. by rewrite get_size_rev.
Qed.

Lemma binv_init ldata rdata (ql qr : nat) :
  length ldata = ql -> length rdata = qr ->
  binv ldata rdata [] [] [] ql qr (mk_bstate 1 1 ldata rdata []).
Proof.
  intros Hl Hr.
  assert (forall q (d : Data), length d = q ->
            d = concat (broadcast_to [] [] <$> chunks q (nsize []) d)) as Hid.
  { intros q d Hd.
    rewrite (list_fmap_ext (broadcast_to [] []) id (chunks q (nsize []) d)) by done.
    rewrite list_fmap_id, concat_chunks_all; [done|]. rewrite nsize_nil. lia. }
  split; simpl; rewrite ?nsize_nil; try done; try lia; try (by apply Hid); constructor.
Qed.

(** [braodcast] on valid operands: it is defined, it fails exactly when the
    alignment rule has no result, and otherwise it delivers the aligned shape
    and each operand's cells read at that shape. *)
Lemma braodcast_spec m lshape rshape ldata rdata :
  Forall (fun d => 0 ≤ d) lshape -> Forall (fun d => 0 ≤ d) rshape ->
  length ldata = nsize lshape -> length rdata = nsize rshape ->
  match align lshape rshape m with
  | None => braodcast lshape rshape m ldata rdata [] = Ok None
  | Some s =>
      braodcast lshape rshape m ldata rdata []
      = Ok (Some (broadcast_cells lshape s ldata, broadcast_cells rshape s rdata, s))
      ∧ grows_to (pad_shape (length s) lshape) s
      ∧ grows_to (pad_shape (length s) rshape) s
  end.
Proof.
  intros HA HB Hl Hr. unfold braodcast, align.
  rewrite braodcast_loop_trailing_pairs.
  pose proof (loop_pairs_spec m ldata rdata (trailing_pairs lshape rshape) [] [] []
                (mk_bstate 1 1 ldata rdata [])
                (trailing_pairs_nonneg _ _ HA HB)) as Hloop.
  rewrite nsize_trailing_fst, nsize_trailing_snd in Hloop.
  specialize (Hloop (binv_init _ _ _ _ Hl Hr)).
  destruct (mapM _ (trailing_pairs lshape rshape)) as [ds|] eqn:Hds.
  - destruct Hloop as (st' & -> & [_ _ Hld Hrd Hsh Hlg Hrg Hll Hrl]).
    cbn [mbind result_bind].
    apply length_mapM in Hds. rewrite length_trailing_pairs in Hds.
    rewrite !app_nil_r in *.
    rewrite trailing_pairs_fst in *. rewrite trailing_pairs_snd in *.
    rewrite Nat.mul_1_l in Hll, Hrl.
    rewrite chunks_1 in Hld, Hrd by done. simpl in Hld, Hrd.
    rewrite app_nil_r in Hld, Hrd.
    unfold broadcast_cells. rewrite length_rev, <- Hds.
    rewrite Hld, Hrd, Hsh, rev_involutive. done.
  - by rewrite Hloop.
Qed.

(** *** [broadcast_to], index by index *)

Lemma lookup_concat_uniform {A} (m : nat) (ls : list (list A)) : forall i p b,
  Forall (fun b => length b = m) ls -> ls !! i = Some b -> (p < m)%nat ->
  concat ls !! (i * m + p)%nat = b !! p.
Proof.
  induction ls as [|b0 ls IH]; intros i p b Hall Hi Hp; [done|].
  inversion Hall as [|? ? Hb0 Hall']; subst.
  destruct i as [|i]; simpl in Hi |- *.
  - injection Hi as ->. by rewrite lookup_app_l by lia.
  - rewrite lookup_app_r by lia.
    replace (_ - length b0)%nat with (i * length b0 + p)%nat by lia.
    by apply IH.
Qed.



Lemma flat_index_lt s : forall idx,
  Forall (fun d => 0 ≤ d) s ->
  Forall2 (fun i d => (i < Z.to_nat d)%nat) idx s ->
  (flat_index s idx < nsize s)%nat.
Proof.
  induction s as [|d s IH]; intros idx Hs Hidx.
  - inversion Hidx; subst. simpl. rewrite nsize_nil. lia.
  - inversion Hidx as [|i ? idx' ? Hi Hidx']; subst.
    inversion Hs as [|? ? Hd Hs']; subst.
    simpl. rewrite nsize_cons by done.
    specialize (IH _ Hs' Hidx'). nia.
Qed.




Example source_index_column :
  flat_index [3; 4] [2; 1]%nat = 9%nat
  ∧ flat_index [3; 1] (source_index [3; 1] [3; 4] [2; 1]%nat) = 2%nat
  ∧ flat_index [1; 4] (source_index [1; 4] [3; 4] [2; 1]%nat) = 1%nat.
Proof. repeat split. Qed.

(** ** Reading, allocating and writing cells *)

Section cells.
Context {T : Type}.
Implicit Types (h : Heap T) (cells : Data).

Lemma contents_cons h c cells v :
  h !! c = Some v -> contents h (c :: cells) = v :: contents h cells.
Proof. intros Hc. unfold contents. simpl. by rewrite Hc. Qed.

Lemma length_contents h cells :
  Forall (fun c => c < length h)%nat cells -> length (contents h cells) = length cells.
Proof.
  induction 1 as [|c cells Hc _ IH]; [done|].
  destruct (lookup_lt_is_Some_2 h c Hc) as [v Hv].
  rewrite (contents_cons _ _ _ _ Hv). simpl. by rewrite IH.
Qed.

Lemma contents_lookup h cells p c :
  Forall (fun c => c < length h)%nat cells ->
  cells !! p = Some c -> contents h cells !! p = h !! c.
Proof.
  intros Hlive. revert p. induction Hlive as [|c' cells Hc _ IH]; intros p Hp; [done|].
  destruct (lookup_lt_is_Some_2 h c' Hc) as [v Hv].
  rewrite (contents_cons _ _ _ _ Hv).
  destruct p as [|p]; simpl in *.
  - by injection Hp as <-.
  - by apply IH.
Qed.

Lemma contents_seq h vals :
  contents (h ++ vals) (seq (length h) (length vals)) = vals.
Proof.
  revert h. induction vals as [|v vals IH]; intros h; [done|].
  cbn [length seq]. rewrite (contents_cons _ _ _ v).
  - f_equal. specialize (IH (h ++ [v])).
    rewrite length_app, <- app_assoc in IH. simpl in IH.
    by rewrite Nat.add_1_r in IH.
  - rewrite lookup_app_r by done. by rewrite Nat.sub_diag.
Qed.

(** The loop of [operator_impl] allocates one cell per position, after the
    cells that exist, and reads the operands in the arena it started from. *)
Lemma operator_loop_spec (f : T -> T -> T) h ldata : forall rdata acc,
  length ldata = length rdata ->
  Forall (fun c => c < length h)%nat ldata ->
  Forall (fun c => c < length h)%nat rdata ->
  operator_loop f ldata rdata (h ++ acc)
  = Some (seq (length (h ++ acc)) (length ldata),
          (h ++ acc) ++ zip_with f (contents h ldata) (contents h rdata)).
Proof.
  induction ldata as [|l ldata IH]; intros rdata acc Hlen Hl Hr.
  - simpl. by rewrite app_nil_r.
  - destruct rdata as [|r rdata]; [done|].
    inversion Hl as [|? ? Hl0 Hl']; inversion Hr as [|? ? Hr0 Hr']; subst.
    destruct (lookup_lt_is_Some_2 h l Hl0) as [x Hx].
    destruct (lookup_lt_is_Some_2 h r Hr0) as [y Hy].
    cbn [operator_loop].
    rewrite !lookup_app_l by done. rewrite Hx, Hy.
    unfold make_shared. rewrite <- app_assoc.
    rewrite IH by (simpl in Hlen; auto with lia).
    rewrite (contents_cons _ _ _ _ Hx), (contents_cons _ _ _ _ Hy).
    cbn [length seq zip_with]. f_equal. f_equal.
    + do 2 f_equal. rewrite !length_app. simpl. lia.
    + by rewrite <- !app_assoc.
Qed.

(** The loop of [operator=] allocates nothing and writes the cells of the
    target only. *)
Lemma assign_loop_frame data : forall rdata h h',
  assign_loop data rdata h = Some h' ->
  length h' = length h ∧ forall c, c ∉ data -> h' !! c = h !! c.
Proof.
  induction data as [|c0 data IH]; intros rdata h h' Hloop.
  - by injection Hloop as <-.
  - destruct rdata as [|r0 rdata]; [done|].
    cbn [assign_loop] in Hloop.
    destruct (h !! r0) as [v|]; [|done]. case_bool_decide; [|done].
    destruct (IH _ _ _ Hloop) as [Hlen Hframe].
    split; [by rewrite Hlen, length_insert|].
    intros c Hc. apply not_elem_of_cons in Hc as [Hne Hc].
    rewrite Hframe by done. by rewrite list_lookup_insert_ne.
Qed.

Lemma assign_loop_total data : forall rdata h,
  length data = length rdata ->
  Forall (fun c => c < length h)%nat data ->
  Forall (fun c => c < length h)%nat rdata ->
  exists h', assign_loop data rdata h = Some h'.
Proof.
  induction data as [|c data IH]; intros rdata h Hlen Hd Hr.
  - by exists h.
  - destruct rdata as [|r rdata]; [done|].
    inversion Hd as [|? ? Hd0 Hd']; inversion Hr as [|? ? Hr0 Hr']; subst.
    destruct (lookup_lt_is_Some_2 h r Hr0) as [v Hv].
    cbn [assign_loop]. rewrite Hv, bool_decide_eq_true_2 by done.
    apply IH; rewrite ?length_insert; auto.
Qed.

(** When the target's cells are pairwise distinct and none of them is read,
    every cell receives the content its source had before the loop. *)
Lemma assign_loop_written data : forall rdata h h',
  NoDup data -> (forall c, c ∈ rdata -> c ∉ data) ->
  assign_loop data rdata h = Some h' ->
  forall i c r, data !! i = Some c -> rdata !! i = Some r -> h' !! c = h !! r.
Proof.
  induction data as [|c0 data IH]; intros rdata h h' Hnd Hdisj Hloop i c r Hc Hr;
    [done|].
  destruct rdata as [|r0 rdata]; [done|].
  cbn [assign_loop] in Hloop.
  destruct (h !! r0) as [v|] eqn:Hv; [|done].
  case_bool_decide as Hc0; [|done].
  apply list.NoDup_cons in Hnd as [Hc0' Hnd].
  destruct i as [|i]; simpl in Hc, Hr.
  - injection Hc as <-. injection Hr as <-.
    destruct (assign_loop_frame _ _ _ _ Hloop) as [_ Hframe].
    rewrite Hframe by done. by rewrite list_lookup_insert_eq.
  - rewrite (IH _ _ _ Hnd) with (2 := Hloop) (3 := Hc) (4 := Hr).
    + apply list_lookup_insert_ne. intros ->.
      apply (Hdisj r); [|by left].
      right. by eapply list_elem_of_lookup_2.
    + intros c' Hc' Hin. apply (Hdisj c'); by right.
Qed.
End cells.

(** ** Arithmetic and assignment on valid arrays *)

Lemma valid_length a : valid a -> length (data_ a) = nsize (shape_ a).
Proof. intros [_ Hsz]. unfold size in Hsz. unfold nsize. lia. Qed.

Lemma length_broadcast_cells {A} shape s (cells : list A) :
  grows_to (pad_shape (length s) shape) s ->
  length cells = nsize shape ->
  length (broadcast_cells shape s cells) = nsize s.
Proof.
  intros Hg Hlen. apply length_broadcast_to; [done|]. by rewrite nsize_pad_shape.
Qed.

Lemma align_axis_false a b :
  (align_axis false a b = Some a ∧ (b = a ∨ b = 1))
  ∨ (align_axis false a b = None ∧ ¬ (b = a ∨ b = 1)).
Proof.
  unfold align_axis. repeat case_bool_decide; simpl; intuition congruence.
Qed.

Lemma mapM_align_false ps :
  match mapM (fun ab => align_axis false ab.1 ab.2) ps with
  | Some ds => ds = ps.*1 ∧ Forall (fun ab => ab.2 = ab.1 ∨ ab.2 = 1) ps
  | None => ¬ Forall (fun ab => ab.2 = ab.1 ∨ ab.2 = 1) ps
  end.
Proof.
  induction ps as [|[a b] ps IH]; [by split|].
  cbn [mapM fst snd].
  destruct (align_axis_false a b) as [[-> Hab]|[-> Hab]]; simpl.
  - destruct (mapM _ ps) as [ds|]; simpl.
    + destruct IH as [-> HF]. split; [done|]. by constructor.
    + intros HF. inversion HF; subst. by apply IH.
  - intros HF. inversion HF; subst. by apply Hab.
Qed.

Lemma align_false_spec target rhs :
  match align target rhs false with
  | Some s => s = pad_shape (length s) target ∧ rhs_expands_to target rhs
  | None => ¬ rhs_expands_to target rhs
  end.
Proof.
  unfold align, rhs_expands_to.
  pose proof (mapM_align_false (trailing_pairs target rhs)) as Hm.
  destruct (mapM _ (trailing_pairs target rhs)) as [ds|] eqn:Hds; [|done].
  destruct Hm as [-> HF]. split; [|done].
  rewrite trailing_pairs_fst.
  assert (forall n s, length (pad_shape n s) = (n `max` length s)%nat) as Hlen.
  { intros n s. unfold pad_shape. rewrite length_app, length_replicate. lia. }
  rewrite Hlen. f_equal. lia.
Qed.

Lemma contents_lookup_bind {T} (h : Heap T) cells p :
  Forall (fun c => c < length h)%nat cells ->
  contents h cells !! p = cells !! p ≫= fun c => h !! c.
Proof.
  intros Hl. destruct (cells !! p) as [c|] eqn:Hc.
  - by apply contents_lookup.
  - apply lookup_ge_None. rewrite length_contents by done. by apply lookup_ge_None.
Qed.

Lemma operator_loop_fresh {T} (f : T -> T -> T) (h : Heap T) ldata rdata :
  length ldata = length rdata ->
  Forall (fun c => c < length h)%nat ldata ->
  Forall (fun c => c < length h)%nat rdata ->
  operator_loop f ldata rdata h
  = Some (seq (length h) (length ldata),
          h ++ zip_with f (contents h ldata) (contents h rdata)).
Proof.
  intros Hlen Hl Hr.
  pose proof (operator_loop_spec f h ldata rdata [] Hlen Hl Hr) as Hloop.
  by rewrite app_nil_r in Hloop.
Qed.

(** ** Indexing *)

Lemma resolve_index_spec a index verify :
  ndim a ≠ 0 ->
  resolve_index a index verify
  = if verify && (bool_decide (index < - hd 0 (shape_ a)) || bool_decide (index >= hd 0 (shape_ a)))
    then Raise IndexError
    else Ok (if bool_decide (index < 0) then index + hd 0 (shape_ a) else index).
Proof.
  intros Hnd. unfold resolve_index, len.
  rewrite !bool_decide_eq_false_2 by done. done.
Qed.

Lemma valid_cons_shape d s data :
  valid (mk_ndarray (d :: s) data) ->
  0 ≤ d ∧ Forall (fun d => 0 ≤ d) s ∧ length data = (Z.to_nat d * nsize s)%nat.
Proof.
  intros V. pose proof (valid_length _ V) as Hlen.
  destruct V as [Hd _]. simpl in *. inversion Hd; subst.
  rewrite nsize_cons in Hlen by done. done.
Qed.

Lemma subscript_in_range d s data i :
  valid (mk_ndarray (d :: s) data) -> 0 ≤ i < d ->
  subscript (mk_ndarray (d :: s) data) i
  = Ok (mk_ndarray s (take (nsize s) (drop (Z.to_nat i * nsize s) data))).
Proof.
  intros V Hi. destruct (valid_cons_shape _ _ _ V) as (Hd & Hs & Hlen).
  unfold subscript. rewrite resolve_index_spec by (unfold ndim; simpl; lia).
  cbn [shape_ data_ hd tail andb].
  rewrite !bool_decide_eq_false_2 by lia. cbn [orb mbind result_bind].
  pose proof (get_size_nonneg s Hs) as Hsz.
  rewrite bool_decide_eq_true_2.
  - unfold nsize. rewrite Z2Nat.inj_mul by lia. done.
  - rewrite Hlen. unfold nsize. split; [nia|]. split; [done|].
    rewrite Nat2Z.inj_mul, !Z2Nat.id by lia. nia.
Qed.

Lemma subscript_valid d s data i :
  valid (mk_ndarray (d :: s) data) -> 0 ≤ i < d ->
  valid (mk_ndarray s (take (nsize s) (drop (Z.to_nat i * nsize s) data))).
Proof.
  intros V Hi. destruct (valid_cons_shape _ _ _ V) as (Hd & Hs & Hlen).
  split; [done|]. unfold size. cbn [shape_ data_].
  rewrite length_take, length_drop, Hlen, (get_size_nsize s) by done.
  assert (Z.to_nat i < Z.to_nat d)%nat by lia. nia.
Qed.

Lemma subscript_out_of_range a i :
  ndim a ≠ 0 -> ¬ (- hd 0 (shape_ a) ≤ i < hd 0 (shape_ a)) ->
  subscript a i = Raise IndexError.
Proof.
  intros Hnd Hi. unfold subscript. rewrite resolve_index_spec by done.
  cbn [andb]. destruct (decide (i < - hd 0 (shape_ a))).
  - by rewrite bool_decide_eq_true_2.
  - rewrite bool_decide_eq_false_2 by done. rewrite bool_decide_eq_true_2 by lia. done.
Qed.

Lemma subscript_negative d s data i :
  - d ≤ i < 0 ->
  subscript (mk_ndarray (d :: s) data) i = subscript (mk_ndarray (d :: s) data) (i + d).
Proof.
  intros Hi. unfold subscript.
  rewrite !resolve_index_spec by (unfold ndim; simpl; lia).
  cbn [shape_ hd andb].
  rewrite !(bool_decide_eq_false_2 (_ < - d)), !(bool_decide_eq_false_2 (_ >= d)) by lia.
  cbn [orb]. rewrite bool_decide_eq_true_2, bool_decide_eq_false_2 by lia. done.
Qed.

(** ** Slicing *)

Lemma for_each_Ok {A B} (f : A -> result B) l ys :
  for_each f l = Ok ys <-> Forall2 (fun x y => f x = Ok y) l ys.
Proof.
  revert ys. induction l as [|x l IH]; intros ys; simpl.
  - split; [intros [= <-]; constructor|by inversion 1].
  - destruct (f x) as [y| |] eqn:Hx.
    + destruct (for_each f l) as [ys'| |] eqn:Hl.
      * split.
        -- intros [= <-]. constructor; [done|]. by apply IH.
        -- inversion 1 as [|? y' ? ys'' Hy Hys]; subst.
           apply IH in Hys. congruence.
      * split; [done|]. inversion 1 as [|? y' ? ys'' Hy Hys]; subst.
        apply IH in Hys. done.
      * split; [done|]. inversion 1 as [|? y' ? ys'' Hy Hys]; subst.
        apply IH in Hys. done.
    + split; [done|]. inversion 1; congruence.
    + split; [done|]. inversion 1; congruence.
Qed.

Lemma for_each_total {A B} (f : A -> result B) l :
  Forall (fun x => exists y, f x = Ok y) l -> exists ys, for_each f l = Ok ys.
Proof.
  induction 1 as [|x l [y Hy] _ [ys Hys]]; simpl; [by eexists|].
  rewrite Hy, Hys. by eexists.
Qed.

Lemma flatten_data_concat ary : flatten_data ary = concat (data_ <$> ary).
Proof.
  unfold flatten_data.
  assert (forall acc, foldl (fun data subary => data ++ data_ subary) acc ary
                      = acc ++ concat (data_ <$> ary)) as Hgen; [|apply Hgen].
  induction ary as [|x ary IH]; intros acc; simpl; [by rewrite app_nil_r|].
  by rewrite IH, app_assoc.
Qed.

Lemma get_shape_uniform ary s :
  ary ≠ [] -> Forall (fun x => shape_ x = s) ary ->
  get_shape ary = Z.of_nat (length ary) :: s.
Proof.
  intros Hne Hall. destruct ary as [|first ary]; [done|].
  unfold get_shape.
  assert (existsb (fun subary => bool_decide (shape_ subary ≠ shape_ first)) (first :: ary)
          = false) as ->.
  { apply not_true_is_false. intros Hex. apply existsb_exists in Hex as (x & Hin & Hx).
    apply bool_decide_eq_true_1 in Hx. apply Hx.
    rewrite list.Forall_forall in Hall.
    rewrite (Hall x) by (by apply list_elem_of_In).
    symmetry. apply Hall. by left. }
  f_equal. by inversion Hall.
Qed.

Lemma range_indices dim first second :
  0 ≤ dim ->
  seqZ (Z.max 0 (resolved dim first))
       (Z.min dim (resolved dim second) - Z.max 0 (resolved dim first))
  = seqZ (range_lo dim first) (range_hi dim second - range_lo dim first).
Proof.
  intros Hdim. unfold range_lo, range_hi.
  destruct (decide (Z.max 0 (resolved dim first) < Z.min dim (resolved dim second))).
  - f_equal; lia.
  - rewrite !seqZ_nil; [done|lia..].
Qed.

Lemma range_indices_bounds dim first second i :
  0 ≤ dim ->
  i ∈ seqZ (range_lo dim first) (range_hi dim second - range_lo dim first) ->
  0 ≤ i < dim.
Proof. intros Hdim. rewrite elem_of_seqZ. unfold range_lo, range_hi. lia. Qed.

Lemma valid_default : valid ndarray_default.
Proof. split; [repeat constructor; lia|reflexivity]. Qed.

(** Consecutive blocks, and sub-selections of them, stay inside the data. *)
Lemma concat_blocks_sublist (sz : nat) (data : Data) (subs : list ndarray) :
  forall lo n,
    0 ≤ lo ->
    Forall2 (fun i sub =>
               data_ sub `sublist_of` take sz (drop (Z.to_nat i * sz) data))
            (seqZ lo (Z.of_nat n)) subs ->
    concat (data_ <$> subs) `sublist_of` drop (Z.to_nat lo * sz) data.
Proof.
  intros lo n. revert lo subs. induction n as [|n IH]; intros lo subs Hlo HF.
  - rewrite seqZ_nil in HF by lia. inversion HF; subst. apply sublist_nil_l.
  - rewrite seqZ_cons in HF by lia.
    inversion HF as [|? sub ? subs' Hsub Hrest]; subst.
    replace (Z.pred (Z.of_nat (S n))) with (Z.of_nat n) in Hrest by lia.
    apply IH in Hrest; [|lia].
    cbn [fmap list_fmap concat].
    rewrite <- (take_drop sz (drop (Z.to_nat lo * sz) data)).
    apply sublist_app; [done|].
    rewrite drop_drop.
    replace (Z.to_nat lo * sz + sz)%nat with (Z.to_nat (Z.succ lo) * sz)%nat by lia.
    done.
Qed.

Lemma slice_impl_range d s data first second args :
  0 ≤ d ->
  slice_impl (Range first second :: args) (mk_ndarray (d :: s) data)
  = slices ← for_each (fun i => sub ← subscript (mk_ndarray (d :: s) data) i; slice sub args)
               (seqZ (range_lo d first) (range_hi d second - range_lo d first));
    Ok (gather slices).
Proof.
  intros Hd. cbn [slice_impl].
  rewrite !resolve_index_spec by (unfold ndim; simpl; lia).
  unfold len. rewrite (bool_decide_eq_false_2 (ndim _ = 0)) by (unfold ndim; simpl; lia).
  cbn [andb shape_ hd mbind result_bind].
  fold (resolved d first). fold (resolved d second).
  rewrite range_indices by done.
  unfold slice.
  destruct (for_each _ _) as [slices| |]; cbn [mbind result_bind]; [|reflexivity..].
  unfold gather. by repeat case_bool_decide.
Qed.

Lemma length_concat_data subs ss :
  Forall (fun sub => valid sub ∧ shape_ sub = ss) subs ->
  length (concat (data_ <$> subs)) = (length subs * nsize ss)%nat.
Proof.
  intros Hall. rewrite (length_concat_uniform (nsize ss)).
  - by rewrite length_fmap.
  - apply Forall_fmap. eapply Forall_impl; [|exact Hall].
    intros sub [V <-]. simpl. by apply valid_length.
Qed.

Lemma gather_spec subs ss :
  Forall (fun sub => valid sub ∧ shape_ sub = ss) subs ->
  gather subs
  = if bool_decide (subs = [] ∨ get_size ss = 0) then ndarray_default
    else mk_ndarray (Z.of_nat (length subs) :: ss) (concat (data_ <$> subs)).
Proof.
  intros Hall. unfold gather.
  destruct subs as [|sub subs]; [done|].
  assert (Forall (fun d => 0 ≤ d) ss) as Hss.
  { inversion Hall as [|? ? [V <-] _]; subst. apply V. }
  rewrite (get_shape_uniform _ ss); [|done|].
  2:{ eapply Forall_impl; [|exact Hall]. by intros ? [_ ?]. }
  rewrite (bool_decide_eq_false_2 (_ :: _ = [])) by done.
  rewrite flatten_data_concat.
  pose proof (length_concat_data _ _ Hall) as Hlen.
  pose proof (get_size_nsize ss Hss) as Hsz.
  cbn [length] in Hlen.
  destruct (decide (get_size ss = 0)) as [Hz|Hnz].
  - rewrite (bool_decide_eq_true_2 (_ ∨ _)) by (by right).
    rewrite bool_decide_eq_true_2; [done|].
    apply nil_length_inv. rewrite Hlen. lia.
  - rewrite (bool_decide_eq_false_2 (_ ∨ _)) by (intros [?|?]; done).
    rewrite bool_decide_eq_false_2; [done|].
    intros Hnil. rewrite Hnil in Hlen. simpl in Hlen. lia.
Qed.

Lemma valid_gathered subs ss :
  Forall (fun d => 0 ≤ d) ss ->
  Forall (fun sub => valid sub ∧ shape_ sub = ss) subs ->
  valid (mk_ndarray (Z.of_nat (length subs) :: ss) (concat (data_ <$> subs))).
Proof.
  intros Hss Hall. split; cbn [shape_ data_].
  - constructor; [lia|done].
  - unfold size. cbn [data_]. rewrite (length_concat_data _ _ Hall), get_size_cons.
    rewrite (get_size_nsize ss Hss). lia.
Qed.

Lemma subscript_Ok_inv a i x :
  valid a -> subscript a i = Ok x ->
  exists d s data idx,
    a = mk_ndarray (d :: s) data ∧ 0 ≤ idx < d
    ∧ x = mk_ndarray s (take (nsize s) (drop (Z.to_nat idx * nsize s) data)).
Proof.
  intros V Hx. destruct a as [[|d s] data]; [done|].
  exists d, s, data.
  destruct (decide (- d ≤ i < d)) as [Hi|Hi].
  - destruct (decide (i < 0)).
    + exists (i + d). rewrite subscript_negative, subscript_in_range in Hx by (done || lia).
      injection Hx as <-. split; [done|]. split; [lia|done].
    + exists i. rewrite subscript_in_range in Hx by (done || lia).
      injection Hx as <-. split; [done|]. split; [lia|done].
  - rewrite subscript_out_of_range in Hx; [done|unfold ndim; simpl; lia|done].
Qed.

Lemma Forall2_impl_elem {A B} (P Q : A -> B -> Prop) l k :
  Forall2 P l k -> (forall x y, x ∈ l -> P x y -> Q x y) -> Forall2 Q l k.
Proof.
  induction 1 as [|x y l k Hxy _ IH]; intros HPQ; constructor.
  - apply HPQ; [by left|done].
  - apply IH. intros x' y' Hin. apply HPQ. by right.
Qed.

Lemma seqZ_to_nat lo n : seqZ lo (Z.of_nat (Z.to_nat n)) = seqZ lo n.
Proof.
  destruct (decide (0 ≤ n)); [by rewrite Z2Nat.id|].
  rewrite !seqZ_nil; [done|lia..].
Qed.

(** A slice of a valid array is valid, has the shape [slice_shape] computes
    and holds a sub-selection of the original handles, in their order. *)
Lemma slice_impl_spec args : forall a v,
  valid a -> slice_impl args a = Ok v ->
  valid v ∧ shape_ v = slice_shape args (shape_ a) ∧ data_ v `sublist_of` data_ a.
Proof.
  induction args as [|[i|first second] args IH]; intros a v V H.
  - injection H as <-. done.
  - cbn [slice_impl] in H.
    destruct (subscript a i) as [x| |] eqn:Hx; cbn [mbind result_bind] in H; [|done..].
    case_bool_decide; [done|].
    destruct (subscript_Ok_inv _ _ _ V Hx) as (d & s & data & idx & -> & Hidx & ->).
    destruct (IH _ _ (subscript_valid _ _ _ _ V Hidx) H) as (Vv & Hsh & Hsub).
    split; [done|]. split; [done|]. cbn [data_] in *.
    etrans; [exact Hsub|]. etrans; [apply sublist_take|apply sublist_drop].
  - destruct a as [[|d s] data]; [done|].
    destruct (valid_cons_shape _ _ _ V) as (Hd & Hs & Hlen).
    rewrite slice_impl_range in H by done.
    destruct (for_each _ _) as [subs| |] eqn:Hsubs; cbn [mbind result_bind] in H; [|done..].
    injection H as <-. apply for_each_Ok in Hsubs.
    cbn [slice_shape shape_ data_ hd tail].
    set (lo := range_lo d first) in *. set (hi := range_hi d second) in *.
    set (ss := slice_shape args s).
    assert (Forall2 (fun i sub =>
              (valid sub ∧ shape_ sub = ss)
              ∧ data_ sub `sublist_of` take (nsize s) (drop (Z.to_nat i * nsize s) data))
              (seqZ lo (hi - lo)) subs) as Hall.
    { eapply Forall2_impl_elem; [exact Hsubs|].
      intros i sub Hi Hsub. cbn beta in Hsub.
      apply range_indices_bounds in Hi; [|done].
      rewrite subscript_in_range in Hsub by done. cbn [mbind result_bind] in Hsub.
      unfold slice in Hsub. case_bool_decide; [done|].
      destruct (IH _ _ (subscript_valid _ _ _ _ V Hi) Hsub) as (Vv & Hsh & Hsl).
      done. }
    assert (Forall (fun sub => valid sub ∧ shape_ sub = ss) subs) as Hvalid.
    { eapply Forall2_Forall_r; [exact Hall|].
      apply list.Forall_forall. intros i _ sub [? _]. done. }
    assert (concat (data_ <$> subs) `sublist_of` data) as Hsl.
    { etrans; [|apply (sublist_drop _ (Z.to_nat lo * nsize s))].
      apply (concat_blocks_sublist _ _ _ lo (Z.to_nat (hi - lo))).
      - unfold lo, range_lo. lia.
      - rewrite seqZ_to_nat. eapply list.Forall2_impl; [exact Hall|].
        intros i sub [_ ?]. done. }
    pose proof (list.Forall2_length _ _ _ Hall) as Hcount.
    rewrite length_seqZ in Hcount.
    rewrite (gather_spec _ ss) by done.
    destruct (decide (hi - lo ≤ 0)) as [Hn|Hn].
    + assert (subs = []) as -> by (apply nil_length_inv; lia).
      rewrite !bool_decide_eq_true_2 by (by left).
      split; [apply valid_default|]. split; [done|]. apply sublist_nil_l.
    + assert (subs ≠ []) as Hne by (intros ->; simpl in Hcount; lia).
      destruct (decide (get_size ss = 0)) as [Hz|Hz].
      * rewrite !bool_decide_eq_true_2 by (by right).
        split; [apply valid_default|]. split; [done|]. apply sublist_nil_l.
      * rewrite !bool_decide_eq_false_2 by (intros [?|?]; done).
        assert (Forall (fun d => 0 ≤ d) ss) as Hss.
        { destruct subs as [|sub subs]; [done|].
          inversion Hvalid as [|? ? [Vs <-] _]; subst. apply Vs. }
        split; [by apply valid_gathered|]. cbn [shape_ data_].
        split; [f_equal; lia|done].
Qed.

Lemma slice_spec a args v :
  valid a -> slice a args = Ok v ->
  valid v ∧ shape_ v = slice_shape args (shape_ a) ∧ data_ v `sublist_of` data_ a.
Proof.
  intros V H. unfold slice in H. case_bool_decide; [done|].
  by apply slice_impl_spec.
Qed.

Lemma for_each_Raise {A B} (f : A -> result B) l e :
  for_each f l = Raise e -> exists x, x ∈ l ∧ f x = Raise e.
Proof.
  induction l as [|x l IH]; simpl; [done|].
  destruct (f x) as [y| |] eqn:Hx.
  - destruct (for_each f l) as [ys| |]; [done| |done].
    intros [= ->]. destruct IH as (x' & Hin & Hx'); [done|].
    exists x'. split; [by right|done].
  - intros [= ->]. exists x. split; [by left|done].
  - done.
Qed.

Lemma per_index_spec d s data args i sub :
  valid (mk_ndarray (d :: s) data) -> 0 ≤ i < d ->
  (x ← subscript (mk_ndarray (d :: s) data) i; slice x args) = Ok sub ->
  valid sub ∧ shape_ sub = slice_shape args s
  ∧ data_ sub `sublist_of` take (nsize s) (drop (Z.to_nat i * nsize s) data).
Proof.
  intros V Hi Hsub. rewrite subscript_in_range in Hsub by done.
  cbn [mbind result_bind] in Hsub.
  by apply (slice_spec _ _ _ (subscript_valid _ _ _ _ V Hi)) in Hsub.
Qed.

Lemma slice_impl_ranges_total args : forall a,
  Forall is_range args -> valid a -> Z.of_nat (length args) ≤ ndim a ->
  exists v, slice_impl args a = Ok v.
Proof.
  induction args as [|arg args IH]; intros a Hr V Hlen; [by eexists|].
  inversion Hr as [|? ? Harg Hr']; subst.
  destruct arg as [|first second]; [done|].
  destruct a as [[|d s] data]; [unfold ndim in Hlen; simpl in Hlen; lia|].
  destruct (valid_cons_shape _ _ _ V) as (Hd & Hs & Hl).
  rewrite slice_impl_range by done.
  destruct (for_each_total
              (fun i => sub ← subscript (mk_ndarray (d :: s) data) i; slice sub args)
              (seqZ (range_lo d first) (range_hi d second - range_lo d first)))
    as [subs ->]; [|by eexists].
  apply list.Forall_forall. intros i Hi.
  apply range_indices_bounds in Hi; [|done]. cbn beta.
  rewrite (subscript_in_range d s data i) by done. cbn [mbind result_bind].
  unfold slice. rewrite bool_decide_eq_false_2.
  - apply IH; [done|by apply (subscript_valid d)|].
    unfold ndim in *. cbn [shape_ length] in *. lia.
  - unfold ndim in *. cbn [shape_ length] in *. lia.
Qed.

Lemma contents_ext {T} (h h' : Heap T) cells cells' :
  Forall (fun c => c < length h)%nat cells ->
  Forall (fun c => c < length h')%nat cells' ->
  length cells = length cells' ->
  (forall i c c', cells !! i = Some c -> cells' !! i = Some c' -> h !! c = h' !! c') ->
  contents h cells = contents h' cells'.
Proof.
  intros Hl Hl' Hlen Hext. apply list_eq. intros i.
  destruct (cells !! i) as [c|] eqn:Hc.
  - destruct (lookup_lt_is_Some_2 cells' i) as [c' Hc'].
    { rewrite <- Hlen. by eapply lookup_lt_Some. }
    rewrite (contents_lookup _ _ _ _ Hl Hc), (contents_lookup _ _ _ _ Hl' Hc').
    by eapply Hext.
  - apply lookup_ge_None in Hc.
    rewrite !(proj2 (lookup_ge_None _ _)); [done| |].
    + rewrite length_contents by done. lia.
    + rewrite length_contents by done. lia.
Qed.

(** ** The size invariant along the operations *)










Lemma astype_loop_spec {T U} (cast : T -> U) (h : Heap T) data : forall hu,
  Forall (fun c => c < length h)%nat data ->
  astype_loop cast data h hu
  = Some (seq (length hu) (length data), hu ++ (cast <$> contents h data)).
Proof.
  induction data as [|c data IH]; intros hu Hl; [by rewrite app_nil_r|].
  inversion Hl as [|? ? Hc Hl']; subst.
  destruct (lookup_lt_is_Some_2 h c Hc) as [v Hv].
  cbn [astype_loop]. rewrite Hv. unfold make_shared. rewrite IH by done.
  rewrite (contents_cons _ _ _ _ Hv). cbn [length seq fmap list_fmap].
  rewrite length_app, <- app_assoc. cbn [length app].
  by rewrite Nat.add_1_r.
Qed.

Lemma valid_astype {T U} (cast : T -> U) a (h : Heap T) (hu : Heap U) :
  valid a -> live h a ->
  exists r hu', astype cast a h hu = Ret r hu' ∧ shape_ r = shape_ a ∧ valid r
                ∧ contents hu' (data_ r) = cast <$> contents h (data_ a).
Proof.
  intros [Hd Hs] La. unfold astype. rewrite astype_loop_spec by done.
  eexists _, _. split; [done|]. split; [done|]. split.
  - split; [done|]. unfold size in *. cbn [data_ shape_]. by rewrite length_seq.
  - cbn [data_].
    rewrite <- (length_contents h (data_ a)), <- (length_fmap cast) by done.
    apply contents_seq.
Qed.

Lemma valid_nested ary ss :
  ary ≠ [] -> Forall (fun sub => valid sub ∧ shape_ sub = ss) ary -> get_size ss ≠ 0 ->
  ndarray_nested ary = mk_ndarray (Z.of_nat (length ary) :: ss) (concat (data_ <$> ary))
  ∧ valid (ndarray_nested ary).
Proof.
  intros Hne Hall Hss.
  assert (Forall (fun d => 0 ≤ d) ss) as Hnn.
  { destruct ary as [|sub ary]; [done|]. inversion Hall as [|? ? [V <-] _]; subst. apply V. }
  assert (ndarray_nested ary
          = mk_ndarray (Z.of_nat (length ary) :: ss) (concat (data_ <$> ary))) as ->;
    [|split; [done|by apply valid_gathered]].
  unfold ndarray_nested. rewrite (get_shape_uniform _ ss); [|done|].
  2:{ eapply Forall_impl; [|exact Hall]. by intros ? [_ ?]. }
  rewrite bool_decide_eq_false_2 by done. rewrite flatten_data_concat.
  rewrite bool_decide_eq_false_2; [done|].
  intros Hnil. pose proof (length_concat_data _ _ Hall) as Hlen.
  rewrite Hnil in Hlen. simpl in Hlen.
  pose proof (get_size_nsize ss Hnn). assert (length ary ≠ 0%nat) by (by destruct ary). nia.
Qed.

(** ** The session of [main]

    The three outputs that the comments of [main] expect. *)

Example main_slice :
  exists h,
    and_then (arange 20 0 []) (fun a0 h =>
    and_then (lift (reshape a0 [4; 1; 5]) h) (fun a h =>
    and_then (lift (slice a [Range 1 4; Idx 0; Range 2 5]) h) (fun b h =>
    Ret (shape b, contents h (data_ b)) h)))
    = Ret ([3; 3], [7; 8; 9; 12; 13; 14; 17; 18; 19]) h.
Proof. eexists. reflexivity. Qed.

Example main_assign :
  exists h,
    and_then (arange 20 0 []) (fun a0 h =>
    and_then (lift (reshape a0 [4; 1; 5]) h) (fun a h =>
    and_then (lift (slice a [Range 1 4; Idx 0; Range 2 5]) h) (fun b h =>
    and_then (full [3; 1; 1] 1 h) (fun f1 h =>
    and_then (scalar_op_l OP_ADD 3 f1 h) (fun t h =>
    and_then (full [1; 3] 2 h) (fun f2 h =>
    and_then (neg f2 h) (fun n h =>
    and_then (add t n h) (fun rhs h =>
    and_then (lift (slice a [Range 1 4; Range 0 1; Range 2 5]) h) (fun v h =>
    and_then (assign v rhs h) (fun _ h =>
    Ret (contents h (data_ a), contents h (data_ b)) h))))))))))
    = Ret ([0; 1; 2; 3; 4; 5; 6; 2; 2; 2; 10; 11; 2; 2; 2; 15; 16; 2; 2; 2],
           [2; 2; 2; 2; 2; 2; 2; 2; 2]) h.
Proof. eexists. reflexivity. Qed.

Example main_index_assign :
  exists h,
    and_then (arange 20 0 []) (fun a0 h =>
    and_then (lift (reshape a0 [4; 1; 5]) h) (fun a h =>
    and_then (lift (slice a [Range 1 4; Idx 0; Range 2 5]) h) (fun b h =>
    and_then (full [3; 1; 1] 1 h) (fun f1 h =>
    and_then (scalar_op_l OP_ADD 3 f1 h) (fun t h =>
    and_then (full [1; 3] 2 h) (fun f2 h =>
    and_then (neg f2 h) (fun n h =>
    and_then (add t n h) (fun rhs h =>
    and_then (lift (slice a [Range 1 4; Range 0 1; Range 2 5]) h) (fun v h =>
    and_then (assign v rhs h) (fun _ h =>
    and_then (lift (subscript a (-1)) h) (fun a1 h =>
    and_then (lift (subscript a1 (-1)) h) (fun a2 h =>
    and_then (lift (subscript a2 (-1)) h) (fun a3 h =>
    and_then (assign_scalar a3 5566 h) (fun _ h =>
    Ret (contents h (data_ a), contents h (data_ b)) h))))))))))))))
    = Ret ([0; 1; 2; 3; 4; 5; 6; 2; 2; 2; 10; 11; 2; 2; 2; 15; 16; 2; 2; 5566],
           [2; 2; 2; 2; 2; 2; 2; 2; 5566]) h.
Proof. eexists. reflexivity. Qed.

(** The operands of [full({3, 1}, 1) + full({1, 4}, 2)] read at the aligned
    shape. *)
Example broadcast_cells_column :
  broadcast_cells [3; 1] [3; 4] [10; 20; 30]
  = [10; 10; 10; 10; 20; 20; 20; 20; 30; 30; 30; 30].
Proof. reflexivity. Qed.

Example broadcast_cells_row :
  broadcast_cells [4] [3; 4] [1; 2; 3; 4] = [1; 2; 3; 4; 1; 2; 3; 4; 1; 2; 3; 4].
Proof. reflexivity. Qed.

(** * The claims *)



(** C2, as the code has it.  Let [v] be a range-slice of a valid array [a]
    whose cells are pairwise distinct, and let [other] be a valid array that
    shares no cell with [v].  When the assignment of [other] to [v] returns,
    it returns [v] itself, shape and cell sequence as they were, and it
    allocates nothing; every cell of [v] then holds the content that the
    cell of [other] at the same position of the aligned shape had before the
    assignment, so any array [w] (the array [a], an earlier view of it) that
    has one of these cells at one of its positions re-reads that content
    there; and every cell outside [v] holds what it held. *)
Theorem assign_write_through {T : Type} (a v other r : ndarray)
    (first second : Z) (args : list slice_arg) (h h' : Heap T) :
  valid a -> live h a -> NoDup (data_ a) ->
  slice a (Range first second :: args) = Ok v ->
  valid other -> live h other ->
  (forall c, c ∈ data_ other -> c ∉ data_ v) ->
  assign v other h = Ret r h' ->
  r = v
  ∧ length h' = length h
  ∧ (exists s,
       align (shape v) (shape other) false = Some s
       ∧ contents h' (data_ v) = contents h (broadcast_cells (shape other) s (data_ other))
       ∧ forall (w : ndarray) (j i : nat) (c : Value),
           data_ w !! j = Some c -> data_ v !! i = Some c ->
           read h' w j = contents h (broadcast_cells (shape other) s (data_ other)) !! i)
  ∧ (forall c, c ∉ data_ v -> h' !! c = h !! c).
Proof.
  intros Va La Hnd Hv Vo Lo Hdisj Hassign.
  destruct (slice_spec _ _ _ Va Hv) as (Vv & _ & Hsub).
  assert (NoDup (data_ v)) as Hndv by (by eapply sublist_NoDup).
  assert (live h v) as Lv.
  { unfold live in *. rewrite list.Forall_forall in *.
    intros c Hc. apply La. by eapply elem_of_sublist. }
  unfold assign, shape in *.
  pose proof (braodcast_spec false (shape_ v) (shape_ other) (data_ v) (data_ other)
                (valid_dims _ Vv) (valid_dims _ Vo)
                (valid_length _ Vv) (valid_length _ Vo)) as Hb.
  pose proof (align_false_spec (shape_ v) (shape_ other)) as Ha.
  destruct (align (shape_ v) (shape_ other) false) as [s|]; [|by rewrite Hb in Hassign].
  destruct Hb as (Hb & _ & Hgo). destruct Ha as [Hs _]. rewrite Hb in Hassign.
  set (bc := broadcast_cells (shape_ other) s (data_ other)) in *.
  destruct (assign_loop (data_ v) bc h) as [h1|] eqn:Hloop; [|done].
  injection Hassign as <- <-.
  destruct (assign_loop_frame _ _ _ _ Hloop) as [Hlen Hframe].
  assert (length bc = length (data_ v)) as Hbclen.
  { unfold bc. rewrite length_broadcast_cells by (done || by apply valid_length).
    rewrite (valid_length v) by done. by rewrite Hs, nsize_pad_shape. }
  assert (Forall (fun c => c < length h)%nat bc) as Lbc by (by apply Forall_broadcast_to).
  assert (forall c, c ∈ bc -> c ∉ data_ v) as Hdisj'.
  { intros c Hc. apply Hdisj.
    assert (Forall (fun c => c ∈ data_ other) bc) as Hall.
    { apply Forall_broadcast_to. by apply list.Forall_forall. }
    rewrite list.Forall_forall in Hall. by apply Hall. }
  pose proof (assign_loop_written _ _ _ _ Hndv Hdisj' Hloop) as Hwritten.
  split; [done|]. split; [done|]. split; [|done].
  exists s. fold bc. split; [done|]. split.
  - apply contents_ext; [by rewrite Hlen|done|done|].
    intros i c c' Hc Hc'. by eapply Hwritten.
  - intros w j i c Hw Hc. unfold read. rewrite Hw. cbn [mbind option_bind].
    destruct (lookup_lt_is_Some_2 bc i) as [c' Hc'].
    { rewrite Hbclen. by eapply lookup_lt_Some. }
    rewrite (contents_lookup _ _ _ _ Lbc Hc'). by eapply Hwritten.
Qed.

Lemma assign_write_through_witness :
  let h := [0; 1; 2; 3; 4; 5; 70; 80] in
  let a := mk_ndarray [3; 2] (seq 0 6) in
  let v := mk_ndarray [2; 2] [2; 3; 4; 5]%nat in
  let other := mk_ndarray [2] [6; 7]%nat in
  exists h', assign v other h = Ret v h'
             ∧ contents h' (data_ a) = [0; 1; 70; 80; 70; 80].
Proof.
  intros h a v other.
  assert (valid a) as Va by (split; [repeat constructor; lia|reflexivity]).
  assert (valid other) as Vo by (split; [repeat constructor; lia|reflexivity]).
  assert (live h a) as La by (repeat constructor; simpl; lia).
  assert (live h other) as Lo by (repeat constructor; simpl; lia).
  assert (NoDup (data_ a)) as Hnd by apply NoDup_seq.
  assert (slice a [Range 1 3] = Ok v) as Hv by reflexivity.
  assert (forall c, c ∈ data_ other -> c ∉ data_ v) as Hdisj.
  { intros c Hc Hc'. simpl in Hc, Hc'.
    rewrite !elem_of_cons, elem_of_nil in Hc. rewrite !elem_of_cons, elem_of_nil in Hc'.
    lia. }
  destruct (assign v other h) as [r h'| |] eqn:Hassign; [|discriminate Hassign..].
  destruct (assign_write_through a v other r 1 3 [] h h' Va La Hnd Hv Vo Lo Hdisj Hassign)
    as (-> & _ & _ & _).
  exists h'. split; [reflexivity|].
  injection Hassign as <-. reflexivity.
Defined.

(** C2, as stated, fails when the right-hand side is itself a view of the
    array: after [a[0:2] = a[0:2, 0]] on a 2 x 2 array, re-reading through
    the array gives neither what the right-hand side held before the
    assignment nor what it holds after it. *)
Lemma assign_overlapping_views :
  let h := [0; 1; 2; 3] in
  let a := mk_ndarray [2; 2] (seq 0 4) in
  let v := mk_ndarray [2; 2] [0; 1; 2; 3]%nat in
  let other := mk_ndarray [2] [0; 2]%nat in
  let cells := broadcast_cells (shape other) (shape v) (data_ other) in
  slice a [Range 0 2] = Ok v
  ∧ slice a [Range 0 2; Idx 0] = Ok other
  ∧ exists h',
      assign v other h = Ret v h'
      ∧ contents h' (data_ a) = [0; 2; 0; 0]
      ∧ contents h cells = [0; 2; 0; 2]
      ∧ contents h' cells = [0; 0; 0; 0]
      ∧ read h' a 3 ≠ contents h cells !! 3%nat
      ∧ read h' a 1 ≠ contents h' cells !! 1%nat.
Proof.
  intros h a v other cells.
  split; [reflexivity|]. split; [reflexivity|]. eexists.
  split; [reflexivity|]. split; [reflexivity|]. split; [reflexivity|].
  split; [reflexivity|]. split; discriminate.
Qed.

(** The other way to lose write-through: a nested literal of the same
    sub-array twice holds one cell twice, and the assignment through a view
    of it stores into that cell twice. *)
Lemma assign_repeated_cells :
  let h := [7; 8; 9] in
  let s := mk_ndarray [] [0%nat] in
  let a := ndarray_nested [s; s] in
  let other := mk_ndarray [2] [1; 2]%nat in
  exists v h',
    slice a [Range 0 2] = Ok v
    ∧ assign v other h = Ret v h'
    ∧ contents h' (data_ a) = [9; 9]
    ∧ contents h (data_ other) = [8; 9].
Proof. intros h s a other. eexists _, _. repeat split. Qed.

(** C3. Assignment aligns with [lhsExpandable = false].  On valid arrays
    whose cells are allocated, the assignment returns normally exactly when
    the right-hand shape reaches the target shape by growing right-hand axes
    of size 1 (or missing) only; the array it returns is the target itself,
    shape and cell sequence unchanged, and no cell is allocated.  When the
    right-hand shape does not reach the target shape, the assignment throws a
    [ValueError]. *)
Theorem assign_broadcast_rule {T : Type} (target rhs : ndarray) (h : Heap T) :
  valid target -> valid rhs -> live h target -> live h rhs ->
  (rhs_expands_to (shape target) (shape rhs)
   -> exists h', assign target rhs h = Ret target h' ∧ length h' = length h)
  ∧ (¬ rhs_expands_to (shape target) (shape rhs)
     -> assign target rhs h = Throw ValueError h)
  ∧ (forall r h', assign target rhs h = Ret r h'
       -> r = target ∧ rhs_expands_to (shape target) (shape rhs)).
Proof.
  intros Vt Vr Lt Lr. unfold assign, shape.
  pose proof (braodcast_spec false (shape_ target) (shape_ rhs) (data_ target) (data_ rhs)
                (valid_dims _ Vt) (valid_dims _ Vr)
                (valid_length _ Vt) (valid_length _ Vr)) as Hb.
  pose proof (align_false_spec (shape_ target) (shape_ rhs)) as Ha.
  destruct (align (shape_ target) (shape_ rhs) false) as [s|].
  - destruct Hb as (-> & Hgt & Hgr). destruct Ha as [Hs Hexp].
    destruct (assign_loop_total (data_ target)
                (broadcast_cells (shape_ rhs) s (data_ rhs)) h) as [h' Hloop].
    + rewrite length_broadcast_cells by (done || by apply valid_length).
      rewrite valid_length by done.
      by rewrite Hs, nsize_pad_shape.
    + done.
    + by apply Forall_broadcast_to.
    + rewrite Hloop. split; [|split].
      * intros _. exists h'. split; [done|].
        by destruct (assign_loop_frame _ _ _ _ Hloop).
      * done.
      * intros r h'' Heq. by injection Heq as <- <-.
  - rewrite Hb. split; [done|]. split; [done|]. intros r h' Heq. discriminate.
Qed.

Lemma assign_broadcast_rule_witness :
  let h := [10; 20; 30; 7] in
  let target := mk_ndarray [3] [0; 1; 2]%nat in
  let rhs := mk_ndarray [1; 1] [3]%nat in
  exists h', assign target rhs h = Ret target h' ∧ length h' = length h.
Proof.
  intros h target rhs.
  assert (valid target) as Vt by (split; [repeat constructor; lia|reflexivity]).
  assert (valid rhs) as Vr by (split; [repeat constructor; lia|reflexivity]).
  assert (live h target) as Lt by (repeat constructor; simpl; lia).
  assert (live h rhs) as Lr by (repeat constructor; simpl; lia).
  destruct (assign_broadcast_rule target rhs h Vt Vr Lt Lr) as [Hok _].
  apply Hok. unfold rhs_expands_to.
  change (trailing_pairs (shape target) (shape rhs)) with [(3, 1); (1, 1)].
  apply Forall_cons_2; [by right|]. apply Forall_cons_2; [by left|]. apply Forall_nil_2.
Defined.

(** C4. On a valid array of rank at least 1 whose leading axis has length
    [n]: [operator[]] throws an [IndexError] exactly when the index is
    outside [[-n, n)]; otherwise a negative index [i] stands for [i + n] and
    the result has the shape without its leading axis and, as cells, the
    block of [product(shape[1:])] handles of the original sequence that
    starts at the resolved index times that product.  The index [-1] gives
    what the index [n - 1] gives. *)
Theorem subscript_spec (a : ndarray) (i : Z) :
  valid a -> ndim a >= 1 ->
  let n := hd 0 (shape_ a) in
  let sz := nsize (tail (shape_ a)) in
  let index := if bool_decide (i < 0) then i + n else i in
  len a = Ok n
  ∧ (subscript a i = Raise IndexError <-> ¬ (- n ≤ i < n))
  ∧ (- n ≤ i < n ->
     subscript a i
     = Ok (mk_ndarray (tail (shape_ a))
             (take sz (drop (Z.to_nat index * sz) (data_ a)))))
  ∧ subscript a (-1) = subscript a (n - 1).
Proof.
  intros V Hnd. destruct a as [[|d s] data]; [unfold ndim in Hnd; simpl in Hnd; lia|].
  cbv zeta. cbn [shape_ data_ hd tail].
  assert (ndim (mk_ndarray (d :: s) data) ≠ 0) as Hnd' by (unfold ndim; simpl; lia).
  assert (- d ≤ i < d ->
          subscript (mk_ndarray (d :: s) data) i
          = Ok (mk_ndarray s
                  (take (nsize s)
                     (drop (Z.to_nat (if bool_decide (i < 0) then i + d else i) * nsize s)
                        data)))) as Hin.
  { intros Hi. case_bool_decide.
    - rewrite subscript_negative by lia. apply subscript_in_range; [done|lia].
    - apply subscript_in_range; [done|lia]. }
  split; [|split; [|split]].
  - unfold len. by rewrite bool_decide_eq_false_2.
  - split.
    + intros Hraise Hi. rewrite Hin in Hraise by done. discriminate.
    + intros Hi. by apply subscript_out_of_range.
  - exact Hin.
  - destruct (decide (1 ≤ d)) as [Hd|Hd].
    + rewrite subscript_negative by lia. f_equal. lia.
    + rewrite !subscript_out_of_range; cbn [shape_ hd]; (done || lia).
Qed.

Lemma subscript_spec_witness :
  let a := mk_ndarray [4; 1; 5] (seq 0 20) in
  subscript a (-1) = Ok (mk_ndarray [1; 5] [15; 16; 17; 18; 19]%nat)
  ∧ subscript a (-1) = subscript a 3
  ∧ subscript a (-5) = Raise IndexError.
Proof.
  intros a.
  assert (valid a) as V by (split; [repeat constructor; lia|reflexivity]).
  assert (ndim a >= 1) as Hnd by (unfold ndim; simpl; lia).
  destruct (subscript_spec a (-1) V Hnd) as (_ & _ & Hin & Hlast).
  destruct (subscript_spec a (-5) V Hnd) as (_ & [_ Hout] & _).
  split; [|split].
  - rewrite Hin by (simpl; lia). reflexivity.
  - exact Hlast.
  - apply Hout. simpl. lia.
Defined.

(** C5, as the code has it.  On a valid array of rank at least 1, for a range
    followed by fewer arguments than the remaining axes: the indices visited
    are those from [lo] up to [hi], the two bounds after negative-index
    resolution clamped to [[0, axisLen]]; the range raises nothing itself (an
    error of the slice is the error of one per-index sub-slice, and with
    ranges only there is none); when the per-index sub-arrays are obtained,
    they all have the same shape, their cells in order are a sub-selection of
    the original handles, and the result is the array of shape
    [[hi - lo] + subShape] over those cells, except that when no index is
    visited or the sub-arrays have no cell the result is the default array of
    shape [[0]] without cells. *)
Theorem slice_range_spec (a : ndarray) (first second : Z) (args : list slice_arg) :
  valid a -> ndim a >= 1 -> Z.of_nat (length args) < ndim a ->
  let dim := hd 0 (shape_ a) in
  let lo := range_lo dim first in
  let hi := range_hi dim second in
  let per_index := fun i => sub ← subscript a i; slice sub args in
  (0 ≤ lo ≤ dim ∧ 0 ≤ hi ≤ dim)
  ∧ (forall e, slice a (Range first second :: args) = Raise e ->
       exists i, lo ≤ i < hi ∧ per_index i = Raise e)
  ∧ (Forall is_range args -> exists r, slice a (Range first second :: args) = Ok r)
  ∧ (forall subs,
       Forall2 (fun i sub => per_index i = Ok sub) (seqZ lo (hi - lo)) subs ->
       let cells := concat (data_ <$> subs) in
       let subShape := slice_shape args (tail (shape_ a)) in
       Forall (fun sub => shape sub = subShape) subs
       ∧ cells `sublist_of` data_ a
       ∧ slice a (Range first second :: args)
         = Ok (if bool_decide (hi ≤ lo ∨ cells = []) then ndarray_default
               else mk_ndarray ((hi - lo) :: subShape) cells)).
Proof.
  intros V Hnd Hargs. destruct a as [[|d s] data]; [unfold ndim in Hnd; simpl in Hnd; lia|].
  destruct (valid_cons_shape _ _ _ V) as (Hd & Hs & Hlen).
  cbv zeta. cbn [shape_ data_ hd tail].
  set (lo := range_lo d first). set (hi := range_hi d second).
  assert (slice (mk_ndarray (d :: s) data) (Range first second :: args)
          = slices ← for_each
                       (fun i => sub ← subscript (mk_ndarray (d :: s) data) i; slice sub args)
                       (seqZ lo (hi - lo));
            Ok (gather slices)) as Hslice.
  { unfold slice at 1. rewrite bool_decide_eq_false_2.
    - by apply slice_impl_range.
    - unfold ndim in *. cbn [shape_ length] in *. lia. }
  split; [unfold lo, hi, range_lo, range_hi; lia|].
  split; [|split].
  - intros e He. rewrite Hslice in He.
    destruct (for_each _ _) as [subs| |] eqn:Hsubs; cbn [mbind result_bind] in He;
      [done| |done].
    injection He as ->. apply for_each_Raise in Hsubs as (i & Hi & Hraise).
    exists i. split; [|done]. apply elem_of_seqZ in Hi. lia.
  - intros Hr. unfold slice. rewrite bool_decide_eq_false_2.
    + apply slice_impl_ranges_total; [by constructor|done|].
      unfold ndim in *. cbn [shape_ length] in *. lia.
    + unfold ndim in *. cbn [shape_ length] in *. lia.
  - intros subs Hsubs.
    set (ss := slice_shape args s).
    assert (Forall2 (fun i sub =>
              (valid sub ∧ shape_ sub = ss)
              ∧ data_ sub `sublist_of` take (nsize s) (drop (Z.to_nat i * nsize s) data))
              (seqZ lo (hi - lo)) subs) as Hall.
    { eapply Forall2_impl_elem; [exact Hsubs|].
      intros i sub Hi Hsub. cbn beta in Hsub.
      apply range_indices_bounds in Hi; [|done].
      by destruct (per_index_spec _ _ _ _ _ _ V Hi Hsub) as (? & ? & ?). }
    assert (Forall (fun sub => valid sub ∧ shape_ sub = ss) subs) as Hvalid.
    { eapply Forall2_Forall_r; [exact Hall|].
      apply list.Forall_forall. intros i _ sub [? _]. done. }
    split; [|split].
    + eapply Forall_impl; [|exact Hvalid]. by intros sub [_ ?].
    + etrans; [|apply (sublist_drop _ (Z.to_nat lo * nsize s))].
      apply (concat_blocks_sublist _ _ _ lo (Z.to_nat (hi - lo))).
      * unfold lo, range_lo. lia.
      * rewrite seqZ_to_nat. eapply list.Forall2_impl; [exact Hall|].
        intros i sub [_ ?]. done.
    + rewrite Hslice. apply for_each_Ok in Hsubs. rewrite Hsubs.
      cbn [mbind result_bind]. f_equal.
      rewrite (gather_spec _ ss) by done.
      pose proof (list.Forall2_length _ _ _ Hall) as Hcount.
      rewrite length_seqZ in Hcount.
      pose proof (length_concat_data _ _ Hvalid) as Hcells.
      destruct (decide (hi ≤ lo)) as [Hn|Hn].
      * assert (subs = []) as -> by (apply nil_length_inv; lia).
        by rewrite !bool_decide_eq_true_2 by (by left).
      * assert (subs ≠ []) as Hne by (intros ->; simpl in Hcount; lia).
        assert (Forall (fun d => 0 ≤ d) ss) as Hss.
        { destruct subs as [|sub subs]; [done|].
          inversion Hvalid as [|? ? [Vs <-] _]; subst. apply Vs. }
        pose proof (get_size_nsize ss Hss) as Hsz.
        destruct (decide (get_size ss = 0)) as [Hz|Hz].
        -- rewrite !bool_decide_eq_true_2; [done| |by right].
           right. apply nil_length_inv. rewrite Hcells. lia.
        -- rewrite !bool_decide_eq_false_2; [f_equal; f_equal; lia| |].
           ++ intros [?|Hnil]; [done|]. rewrite Hnil in Hcells. simpl in Hcells.
              assert (length subs ≠ 0%nat) by (by destruct subs). nia.
           ++ intros [?|?]; done.
Qed.

Lemma slice_range_spec_witness :
  slice (mk_ndarray [4; 1; 5] (seq 0 20)) [Range 1 4; Idx 0; Range 2 5]
  = Ok (mk_ndarray [3; 3] [7; 8; 9; 12; 13; 14; 17; 18; 19]%nat).
Proof.
  set (a := mk_ndarray [4; 1; 5] (seq 0 20)).
  assert (valid a) as V by (split; [repeat constructor; lia|reflexivity]).
  assert (ndim a >= 1) as Hnd by (unfold ndim; simpl; lia).
  assert (Z.of_nat (length [Idx 0; Range 2 5]) < ndim a) as Hargs
    by (unfold ndim; simpl; lia).
  destruct (slice_range_spec a 1 4 [Idx 0; Range 2 5] V Hnd Hargs) as (_ & _ & _ & Hsubs).
  destruct (Hsubs [mk_ndarray [3] [7; 8; 9]%nat; mk_ndarray [3] [12; 13; 14]%nat;
                   mk_ndarray [3] [17; 18; 19]%nat]) as (_ & _ & ->).
  - change (seqZ _ _) with [1; 2; 3].
    apply Forall2_cons_2; [reflexivity|].
    apply Forall2_cons_2; [reflexivity|].
    apply Forall2_cons_2; [reflexivity|]. apply Forall2_nil_2.
  - reflexivity.
Defined.

(** C5, as stated, fails on an empty range of an array of rank 2: the result
    has the shape [[0]], not [[end - start] + subShape]. *)
Lemma slice_empty_range_shape :
  let a := mk_ndarray [2; 2] (seq 0 4) in
  slice a [Range 1 1] = Ok (mk_ndarray [0] [])
  ∧ shape (mk_ndarray [0] []) ≠ [1 - 1] ++ tail (shape a).
Proof. split; [reflexivity|discriminate]. Qed.



(** C7, at the input on which the code breaks it.  The nested literal of two
    sub-arrays of shapes [[2]] and [[3]] is an array of rank 0 without any
    cell, while the product of the empty shape is 1. *)
Theorem ndarray_nested_breaks_size :
  let r := ndarray_nested [mk_ndarray [2] [0; 1]%nat; mk_ndarray [3] [2; 3; 4]%nat] in
  size r = 0 ∧ get_size (shape r) = 1 ∧ ¬ valid r.
Proof.
  split; [reflexivity|]. split; [reflexivity|].
  intros [_ Hsize]. discriminate Hsize.
Qed.

(** C8. An operation that throws one of the three errors leaves the arena as
    it found it: the assignment and the arithmetic operators detect the
    broadcast failure before the first write or allocation, the scalar
    conversion before the read, and the member functions that touch no cell
    content ([reshape], [slice], [operator[]], [len]) have no arena to
    change.  With a scalar operand, the promoted scalar is a new cell and
    every cell that existed keeps its content.  Arrays are values of the
    model, so no shape changes either. *)
Theorem error_leaves_arena {T : Type} `{Elem T} (h h' : Heap T) (e : ErrorTag) :
  (forall target rhs, assign target rhs h = Throw e h' -> h' = h)
  ∧ (forall a b op, operator_impl a b op h = Throw e h' -> h' = h)
  ∧ (forall a, to_scalar a h = Throw e h' -> h' = h)
  ∧ (forall a s, lift (reshape a s) h = Throw e h' -> h' = h)
  ∧ (forall a args, lift (slice a args) h = Throw e h' -> h' = h)
  ∧ (forall a i, lift (subscript a i) h = Throw e h' -> h' = h)
  ∧ (forall a, lift (len a) h = Throw e h' -> h' = h)
  ∧ (forall op x a, scalar_op_l op x a h = Throw e h' ->
       forall c v, h !! c = Some v -> h' !! c = Some v)
  ∧ (forall op a x, scalar_op_r op a x h = Throw e h' ->
       forall c v, h !! c = Some v -> h' !! c = Some v)
  ∧ (forall a, neg a h = Throw e h' ->
       forall c v, h !! c = Some v -> h' !! c = Some v)
  ∧ (forall target x, assign_scalar target x h = Throw e h' ->
       forall c v, h !! c = Some v -> h' !! c = Some v).
Proof.
  assert (forall A (r : result A), lift r h = Throw e h' -> h' = h) as Hlift.
  { intros A [x|e'|]; simpl; congruence. }
  assert (forall h0 target rhs, assign target rhs h0 = Throw e h' -> h' = h0) as Hassign.
  { intros h0 target rhs. unfold assign.
    destruct (braodcast _ _ _ _ _ _) as [[[[ld rd] s]|]|e'|]; try congruence.
    destruct (assign_loop _ _ _); congruence. }
  assert (forall h0 a b op, operator_impl a b op h0 = Throw e h' -> h' = h0) as Hop.
  { intros h0 a b op. unfold operator_impl.
    destruct (braodcast _ _ _ _ _ _) as [[[[ld rd] s]|]|e'|]; try congruence.
    destruct (operator_loop _ _ _ _) as [[? ?]|]; congruence. }
  split; [apply Hassign|]. split; [apply Hop|]. split.
  { intros a. unfold to_scalar. case_bool_decide; [congruence|].
    destruct (data_ a) as [|c ?]; [congruence|]. destruct (h !! c); congruence. }
  do 4 (split; [eauto|]).
  split; [|split; [|split]].
  - intros op x a Hthrow c v Hc. apply Hop in Hthrow as ->. by apply lookup_app_l_Some.
  - intros op a x Hthrow c v Hc. apply Hop in Hthrow as ->. by apply lookup_app_l_Some.
  - intros a Hthrow c v Hc. apply Hop in Hthrow as ->. by apply lookup_app_l_Some.
  - intros target x Hthrow c v Hc. apply Hassign in Hthrow as ->.
    by apply lookup_app_l_Some.
Qed.

Lemma error_leaves_arena_witness :
  let h := [1; 2; 3; 4; 5] in
  exists e h',
    assign (mk_ndarray [3] [0; 1; 2]%nat) (mk_ndarray [2] [3; 4]%nat) h = Throw e h'
    ∧ h' = h.
Proof.
  intros h. exists ValueError, h. split; [reflexivity|].
  apply (proj1 (error_leaves_arena h h ValueError)
           (mk_ndarray [3] [0; 1; 2]%nat) (mk_ndarray [2] [3; 4]%nat)).
  reflexivity.
Defined.

(** C9, as the code has it.  [len] on an array of rank 0 throws a
    [TypeError]. *)
Theorem len_rank0 (a : ndarray) : ndim a = 0 -> len a = Raise TypeError.
Proof. intros Hnd. unfold len. by rewrite bool_decide_eq_true_2. Qed.

Lemma len_rank0_witness : len (mk_ndarray [] [0%nat]) = Raise TypeError.
Proof. apply len_rank0. reflexivity. Defined.

(** C9, as stated, fails on a scalar: the error is not an [IndexError]. *)
Lemma len_rank0_not_index_error :
  ndim (mk_ndarray [] [0%nat]) = 0 ∧ len (mk_ndarray [] [0%nat]) ≠ Raise IndexError.
Proof. split; [reflexivity|discriminate]. Qed.

(** C10. A nested literal in which some sub-array has a shape different from
    the first one's gives, without throwing, the array with the empty shape
    and no cell: its rank is 0 and its size is 0, and it is not the
    one-axis empty array of shape [[0]]. *)
Theorem ndarray_nested_mismatch (first : ndarray) (rest : list ndarray) :
  (exists subary, subary ∈ first :: rest ∧ shape subary ≠ shape first) ->
  ndarray_nested (first :: rest) = mk_ndarray [] []
  ∧ ndim (ndarray_nested (first :: rest)) = 0
  ∧ size (ndarray_nested (first :: rest)) = 0
  ∧ ndarray_nested (first :: rest) ≠ ndarray_default.
Proof.
  intros (subary & Hin & Hne).
  assert (ndarray_nested (first :: rest) = mk_ndarray [] []) as ->; [|done].
  unfold ndarray_nested, get_shape.
  assert (existsb (fun subary => bool_decide (shape_ subary ≠ shape_ first)) (first :: rest)
          = true) as ->.
  { apply existsb_exists. exists subary. split; [by apply list_elem_of_In|].
    by apply bool_decide_eq_true_2. }
  done.
Qed.

Lemma ndarray_nested_mismatch_witness :
  ndarray_nested [mk_ndarray [2] [0; 1]%nat; mk_ndarray [3] [2; 3; 4]%nat]
  = mk_ndarray [] [].
Proof.
  apply ndarray_nested_mismatch.
  exists (mk_ndarray [3] [2; 3; 4]%nat). split; [|discriminate].
  apply list_elem_of_In. right. left. reflexivity.
Defined.

(** * Further properties of the class *)

(** ** Alignment of particular pairs of shapes *)

Lemma align_axis_comm a b : align_axis true a b = align_axis true b a.
Proof.
  unfold align_axis. cbn [andb].
  repeat case_bool_decide; congruence.
Qed.

Lemma mapM_axis_swap (l k : list Z) :
  mapM (fun ab : Z * Z => align_axis true ab.1 ab.2) (zip l k)
  = mapM (fun ab : Z * Z => align_axis true ab.1 ab.2) (zip k l).
Proof.
  revert k. induction l as [|a l IH]; intros [|b k]; try reflexivity.
  cbn [zip zip_with mapM fst snd]. by rewrite align_axis_comm, IH.
Qed.

Lemma align_comm A B : align A B true = align B A true.
Proof.
  unfold align, trailing_pairs.
  by rewrite mapM_axis_swap, (Nat.max_comm (length A)).
Qed.

Lemma mapM_axis_same m (l : list Z) :
  mapM (fun ab : Z * Z => align_axis m ab.1 ab.2) (zip l l) = Some l.
Proof.
  induction l as [|a l IH]; [reflexivity|].
  cbn [zip zip_with mapM fst snd]. fold (zip l l). rewrite IH.
  unfold align_axis. by rewrite bool_decide_eq_true_2.
Qed.

Lemma mapM_axis_ones_r m (l : list Z) :
  mapM (fun ab : Z * Z => align_axis m ab.1 ab.2) (zip l (replicate (length l) 1)) = Some l.
Proof.
  induction l as [|a l IH]; [reflexivity|].
  cbn [length replicate zip zip_with mapM fst snd].
  fold (zip l (replicate (length l) 1)). rewrite IH.
  unfold align_axis. repeat case_bool_decide; done.
Qed.

Lemma mapM_axis_ones_l (l : list Z) :
  mapM (fun ab : Z * Z => align_axis true ab.1 ab.2) (zip (replicate (length l) 1) l) = Some l.
Proof. rewrite mapM_axis_swap. apply mapM_axis_ones_r. Qed.

Lemma align_same m s : align s s m = Some s.
Proof.
  unfold align, trailing_pairs.
  rewrite Nat.max_id, Nat.sub_diag. cbn [replicate]. rewrite app_nil_r.
  by rewrite mapM_axis_same, rev_involutive.
Qed.

Lemma align_scalar_r m s : align s [] m = Some s.
Proof.
  unfold align, trailing_pairs. cbn [length rev app].
  rewrite Nat.max_0_r, Nat.sub_diag, Nat.sub_0_r. cbn [replicate]. rewrite app_nil_r.
  rewrite <- (length_rev s) at 1.
  by rewrite mapM_axis_ones_r, rev_involutive.
Qed.


(** ** Operands that are read as they are, or as one repeated cell *)

Lemma pad_shape_same s : pad_shape (length s) s = s.
Proof. unfold pad_shape. by rewrite Nat.sub_diag. Qed.

Lemma pad_shape_nil n : pad_shape n [] = replicate n 1.
Proof. unfold pad_shape. cbn [length]. by rewrite Nat.sub_0_r, app_nil_r. Qed.

Lemma broadcast_to_same {A} s : forall cells : list A,
  Forall (fun d => 0 ≤ d) s -> length cells = nsize s ->
  broadcast_to s s cells = cells.
Proof.
  induction s as [|d s IH]; intros cells Hs Hlen; [reflexivity|].
  apply list.Forall_cons in Hs as [Hd Hs].
  cbn [broadcast_to]. rewrite bool_decide_eq_true_2 by done.
  rewrite nsize_cons in Hlen by done.
  rewrite <- (concat_chunks_all (Z.to_nat d) (nsize s) cells) at 2 by done.
  f_equal.
  rewrite <- (list_fmap_id (chunks (Z.to_nat d) (nsize s) cells)) at 2.
  apply list_fmap_ext. intros i x Hx. cbn. apply IH; [done|].
  pose proof (Forall_length_chunks (Z.to_nat d) (nsize s) cells) as Hf.
  rewrite list.Forall_forall in Hf. apply Hf; [lia|]. by eapply list_elem_of_lookup_2.
Qed.

Lemma broadcast_cells_same {A} s (cells : list A) :
  Forall (fun d => 0 ≤ d) s -> length cells = nsize s ->
  broadcast_cells s s cells = cells.
Proof. intros. unfold broadcast_cells. rewrite pad_shape_same. by apply broadcast_to_same. Qed.

Lemma concat_replicate_replicate {A} (n m : nat) (x : A) :
  concat (replicate n (replicate m x)) = replicate (n * m) x.
Proof.
  induction n as [|n IH]; [reflexivity|].
  cbn [replicate concat]. rewrite IH. by rewrite <- replicate_add.
Qed.

Lemma broadcast_to_ones {A} s (c : A) :
  Forall (fun d => 0 ≤ d) s ->
  broadcast_to (replicate (length s) 1) s [c] = replicate (nsize s) c.
Proof.
  induction s as [|d s IH]; intros Hs; [reflexivity|].
  apply list.Forall_cons in Hs as [Hd Hs].
  cbn [length replicate broadcast_to]. rewrite nsize_cons by done.
  case_bool_decide as Hd1.
  - subst d. unfold nsize at 1. rewrite get_size_replicate_1.
    change (Z.to_nat 1) with 1%nat. cbn [chunks take fmap list_fmap concat].
    rewrite IH by done. rewrite app_nil_r. f_equal. lia.
  - rewrite IH by done. apply concat_replicate_replicate.
Qed.

Lemma broadcast_cells_scalar {A} s (c : A) :
  Forall (fun d => 0 ≤ d) s ->
  broadcast_cells [] s [c] = replicate (nsize s) c.
Proof. intros. unfold broadcast_cells. rewrite pad_shape_nil. by apply broadcast_to_ones. Qed.

(** ** Cells and arenas *)

Lemma contents_unfold {T} (h : Heap T) c cells :
  contents h (c :: cells)
  = match h !! c with Some v => v :: contents h cells | None => contents h cells end.
Proof. reflexivity. Qed.

Lemma contents_app {T} (h : Heap T) l k :
  contents h (l ++ k) = contents h l ++ contents h k.
Proof. apply omap_app. Qed.



Lemma contents_frame {T} (h h' : Heap T) cells :
  (forall c, c ∈ cells -> h' !! c = h !! c) ->
  contents h' cells = contents h cells.
Proof.
  induction cells as [|c cells IH]; intros Hc; [reflexivity|].
  assert (contents h' cells = contents h cells) as IH'.
  { apply IH. intros c' Hin. apply Hc. by apply list_elem_of_further. }
  pose proof (Hc c (list_elem_of_here _ _)) as Hh.
  rewrite !contents_unfold. by rewrite Hh, IH'.
Qed.

Lemma live_grow {T} (h acc : Heap T) a : live h a -> live (h ++ acc) a.
Proof.
  unfold live. intros Hl. eapply Forall_impl; [|exact Hl].
  cbn. intros c Hc. rewrite length_app. lia.
Qed.

(** ** [operator_impl] once the shapes are aligned *)

Lemma operator_impl_aligned {T} `{Elem T} a b op (h : Heap T) s :
  valid a -> valid b -> live h a -> live h b ->
  align (shape_ a) (shape_ b) true = Some s ->
  operator_impl a b op h
  = Ret (mk_ndarray s (seq (length h) (nsize s)))
        (h ++ zip_with (operator_fn op)
                (contents h (broadcast_cells (shape_ a) s (data_ a)))
                (contents h (broadcast_cells (shape_ b) s (data_ b)))).
Proof.
  intros Va Vb La Lb Hal. unfold operator_impl, shape.
  pose proof (braodcast_spec true (shape_ a) (shape_ b) (data_ a) (data_ b)
                (valid_dims _ Va) (valid_dims _ Vb)
                (valid_length _ Va) (valid_length _ Vb)) as Hb.
  rewrite Hal in Hb. destruct Hb as (-> & Hga & Hgb).
  assert (length (broadcast_cells (shape_ a) s (data_ a)) = nsize s) as Hll
    by (apply length_broadcast_cells; [done|by apply valid_length]).
  assert (length (broadcast_cells (shape_ b) s (data_ b)) = nsize s) as Hrl
    by (apply length_broadcast_cells; [done|by apply valid_length]).
  rewrite operator_loop_fresh;
    [by rewrite Hll|congruence|by apply Forall_broadcast_to..].
Qed.

Lemma operator_impl_unaligned {T} `{Elem T} a b op (h : Heap T) :
  valid a -> valid b ->
  align (shape_ a) (shape_ b) true = None ->
  operator_impl a b op h = Throw ValueError h.
Proof.
  intros Va Vb Hal. unfold operator_impl, shape.
  pose proof (braodcast_spec true (shape_ a) (shape_ b) (data_ a) (data_ b)
                (valid_dims _ Va) (valid_dims _ Vb)
                (valid_length _ Va) (valid_length _ Vb)) as Hb.
  rewrite Hal in Hb. by rewrite Hb.
Qed.

Lemma zip_with_comm {A B} (f : A -> A -> B) (l k : list A) :
  (forall x y, f x y = f y x) -> zip_with f l k = zip_with f k l.
Proof.
  intros Hf. revert k. induction l as [|x l IH]; intros [|y k]; try reflexivity.
  cbn [zip_with]. by rewrite Hf, IH.
Qed.

(** ** A scalar promoted to an operand *)



Lemma contents_fresh {T} (h vals : Heap T) n :
  n = length vals -> contents (h ++ vals) (seq (length h) n) = vals.
Proof. intros ->. apply contents_seq. Qed.

(** ** Arithmetic with equal shapes, with a scalar, and with the operands
    exchanged *)







(** X4. With an element operator that commutes, exchanging the two operands
    of a binary operator changes nothing: both orders throw the
    [ValueError], or both return the same shape, the same new cells and the
    same values. *)
Theorem operator_impl_comm {T : Type} `{Elem T} (a b : ndarray) (op : Operator)
    (h : Heap T) :
  valid a -> valid b -> live h a -> live h b ->
  (forall x y : T, operator_fn op x y = operator_fn op y x) ->
  operator_impl a b op h = operator_impl b a op h.
Proof.
  intros Va Vb La Lb Hf.
  destruct (align (shape_ a) (shape_ b) true) as [s|] eqn:Hal.
  - rewrite (operator_impl_aligned a b op h s) by done.
    rewrite (operator_impl_aligned b a op h s) by (done || by rewrite align_comm).
    by rewrite (zip_with_comm (operator_fn op)).
  - rewrite (operator_impl_unaligned a b) by done.
    by rewrite (operator_impl_unaligned b a) by (done || by rewrite align_comm).
Qed.

Lemma operator_impl_comm_witness :
  let h := [1; 2; 3; 10; 20] in
  let a := mk_ndarray [3; 1] [0; 1; 2]%nat in
  let b := mk_ndarray [2] [3; 4]%nat in
  add a b h = add b a h.
Proof.
  intros h a b. apply (operator_impl_comm a b OP_ADD h).
  - split; [repeat constructor; lia|reflexivity].
  - split; [repeat constructor; lia|reflexivity].
  - repeat constructor; simpl; lia.
  - repeat constructor; simpl; lia.
  - intros x y. cbn. lia.
Defined.

(** ** Chains of indices and the row-major layout *)

Lemma take_drop_take {A} (l : list A) (m q n : nat) :
  (q + m ≤ n)%nat -> take m (drop q (take n l)) = take m (drop q l).
Proof.
  intros Hle. rewrite skipn_firstn_comm, take_take. f_equal. lia.
Qed.

Lemma subscript_resolved d s data i :
  valid (mk_ndarray (d :: s) data) -> - d ≤ i < d ->
  subscript (mk_ndarray (d :: s) data) i
  = Ok (mk_ndarray s (take (nsize s) (drop (Z.to_nat (resolved d i) * nsize s) data))).
Proof.
  intros Va Hi. unfold resolved. case_bool_decide as Hneg.
  - rewrite subscript_negative by lia. apply subscript_in_range; [done|lia].
  - apply subscript_in_range; [done|lia].
Qed.

Lemma subscript_shape a i x : subscript a i = Ok x -> shape_ x = tail (shape_ a).
Proof.
  unfold subscript. destruct (resolve_index a i true) as [r| |]; [|done..].
  cbn [mbind result_bind]. case_bool_decide; [|done]. by intros [= <-].
Qed.

Lemma subscript_Ok_ndim a i x : subscript a i = Ok x -> ndim x = ndim a - 1.
Proof.
  intros Hx. pose proof (subscript_shape _ _ _ Hx) as Hs. revert Hx.
  unfold subscript, resolve_index. case_bool_decide as Hn; [done|]. intros _.
  unfold ndim in *. rewrite Hs. destruct (shape_ a); [done|]. cbn [tail length]. lia.
Qed.

Lemma flat_index_block s : forall idx,
  Forall (fun d => 0 ≤ d) s ->
  Forall2 (fun i d => (i < Z.to_nat d)%nat) idx (take (length idx) s) ->
  (flat_index s idx + nsize (drop (length idx) s) ≤ nsize s)%nat.
Proof.
  induction s as [|d s IH]; intros idx Hs Hidx.
  - destruct idx; cbn [flat_index]; rewrite drop_nil; lia.
  - apply list.Forall_cons in Hs as [Hd Hs].
    destruct idx as [|i idx]; [cbn [flat_index length]; rewrite drop_0; lia|].
    cbn [length take] in Hidx. apply list.Forall2_cons in Hidx as [Hi Hidx].
    cbn [flat_index length drop]. rewrite nsize_cons by done.
    specialize (IH idx Hs Hidx). nia.
Qed.

Lemma resolve_all_bounds s : forall idx,
  Forall2 (fun i d => - d ≤ i < d) idx (take (length idx) s) ->
  length (resolve_all s idx) = length idx
  ∧ Forall2 (fun i d => (i < Z.to_nat d)%nat) (resolve_all s idx)
      (take (length (resolve_all s idx)) s).
Proof.
  induction s as [|d s IH]; intros [|i idx] Hidx; try (split; [done|constructor]).
  - cbn [length take] in Hidx. inversion Hidx.
  - cbn [length take] in Hidx. apply list.Forall2_cons in Hidx as [Hi Hidx].
    destruct (IH idx Hidx) as [Hlen Hb].
    unfold resolve_all in *. cbn [zip_with length take]. split; [by rewrite Hlen|].
    constructor; [|done]. unfold resolved. case_bool_decide; lia.
Qed.

Lemma subscripts_spec idx : forall a,
  valid a ->
  Forall2 (fun i d => - d ≤ i < d) idx (take (length idx) (shape_ a)) ->
  subscripts a idx
  = Ok (mk_ndarray (drop (length idx) (shape_ a))
          (take (nsize (drop (length idx) (shape_ a)))
                (drop (flat_index (shape_ a) (resolve_all (shape_ a) idx)) (data_ a)))).
Proof.
  induction idx as [|i idx IH]; intros [sh data] Va Hidx; cbn [shape_ data_] in *.
  - cbn [subscripts length drop]. unfold resolve_all.
    replace (flat_index sh (zip_with _ sh [])) with 0%nat by (by destruct sh).
    rewrite !drop_0. rewrite take_ge; [done|].
    pose proof (valid_length _ Va) as Hl. cbn [shape_ data_] in Hl. lia.
  - destruct sh as [|d s]; [inversion Hidx|].
    cbn [length take] in Hidx. apply list.Forall2_cons in Hidx as [Hi Hidx].
    cbn [subscripts]. rewrite subscript_resolved by done. cbn [mbind result_bind].
    pose proof (valid_cons_shape _ _ _ Va) as (Hd & Hs & Hlen).
    assert (valid (mk_ndarray s
              (take (nsize s) (drop (Z.to_nat (resolved d i) * nsize s) data)))) as Vx.
    { apply (subscript_valid d); [done|]. unfold resolved. case_bool_decide; lia. }
    rewrite IH by done. cbn [shape_ data_ length drop].
    unfold resolve_all at 2. cbn [zip_with flat_index]. fold (resolve_all s idx).
    destruct (resolve_all_bounds s idx Hidx) as [Hl Hb].
    pose proof (flat_index_block s (resolve_all s idx) Hs Hb) as Hblock.
    rewrite Hl in Hblock.
    rewrite take_drop_take by lia. by rewrite drop_drop.
Qed.

Lemma slice_impl_indices idx : forall a,
  Z.of_nat (length idx) ≤ ndim a ->
  slice_impl (Idx <$> idx) a = subscripts a idx.
Proof.
  induction idx as [|i idx IH]; intros a Hlen; [reflexivity|].
  cbn [fmap list_fmap slice_impl subscripts].
  destruct (subscript a i) as [x| |] eqn:Hx; [|done..].
  cbn [mbind result_bind]. apply subscript_Ok_ndim in Hx.
  cbn [length] in Hlen. rewrite length_fmap.
  rewrite bool_decide_eq_false_2 by lia. apply IH. lia.
Qed.

(** ** The sub-arrays of a range *)

Lemma for_each_fmap {A B} (f : A -> result B) (g : A -> B) l :
  (forall x, x ∈ l -> f x = Ok (g x)) -> for_each f l = Ok (g <$> l).
Proof.
  induction l as [|x l IH]; intros Hf; [reflexivity|].
  cbn [for_each]. rewrite Hf by apply list_elem_of_here.
  rewrite IH; [done|]. intros y Hy. apply Hf. by apply list_elem_of_further.
Qed.

Lemma blocks_chunks (s : Shape) (data : Data) (n : nat) : forall cnt lo,
  0 ≤ lo ->
  data_ <$> ((fun i => mk_ndarray s (take n (drop (Z.to_nat i * n) data)))
               <$> seqZ lo (Z.of_nat cnt))
  = chunks cnt n (drop (Z.to_nat lo * n) data).
Proof.
  induction cnt as [|cnt IH]; intros lo Hlo; [reflexivity|].
  rewrite seqZ_cons by lia. cbn [fmap list_fmap chunks data_]. f_equal.
  replace (Z.pred (Z.of_nat (S cnt))) with (Z.of_nat cnt) by lia.
  specialize (IH (Z.succ lo)). cbn [fmap] in IH. rewrite IH by lia.
  rewrite drop_drop. do 2 f_equal. lia.
Qed.

Lemma concat_blocks (s : Shape) (data : Data) (n : nat) lo cnt :
  0 ≤ lo -> 0 ≤ cnt ->
  concat (data_ <$> ((fun i => mk_ndarray s (take n (drop (Z.to_nat i * n) data)))
                       <$> seqZ lo cnt))
  = take (Z.to_nat cnt * n) (drop (Z.to_nat lo * n) data).
Proof.
  intros Hlo Hcnt. rewrite <- (Z2Nat.id cnt) at 1 by done.
  by rewrite blocks_chunks, concat_chunks.
Qed.

Lemma range_lo_full d : 0 ≤ d -> range_lo d 0 = 0.
Proof. intros. unfold range_lo, resolved. rewrite bool_decide_eq_false_2 by lia. lia. Qed.

Lemma range_hi_full d : 0 ≤ d -> range_hi d d = d.
Proof.
  intros. unfold range_hi, resolved. rewrite bool_decide_eq_false_2 by lia. lia.
Qed.

(** ** Indexing and slicing, composed *)

(** X5. A chain of indices [a[i1]...[ik]] on a valid array, each index
    within [-d, d) of its axis, never fails: it returns the view of rank
    [ndim - k] whose cells are the contiguous run of the array's own cells
    that starts at the row-major position of the resolved indices.  With
    one index per axis the view is the single cell at the row-major
    position of the multi-index. *)
Theorem subscripts_row_major (a : ndarray) (idx : list Z) :
  valid a ->
  Forall2 (fun i d => - d ≤ i < d) idx (take (length idx) (shape a)) ->
  exists x,
    subscripts a idx = Ok x
    ∧ valid x
    ∧ shape x = drop (length idx) (shape a)
    ∧ data_ x = take (nsize (shape x))
                  (drop (flat_index (shape a) (resolve_all (shape a) idx)) (data_ a))
    ∧ (length idx = length (shape a) ->
       exists c, data_ a !! flat_index (shape a) (resolve_all (shape a) idx) = Some c
                 ∧ x = mk_ndarray [] [c]).
Proof.
  unfold shape. intros Va Hidx. rewrite subscripts_spec by done.
  eexists. split; [done|]. cbn [shape_ data_].
  destruct (resolve_all_bounds _ _ Hidx) as [Hl Hb].
  pose proof (flat_index_block _ _ (valid_dims _ Va) Hb) as Hblock.
  rewrite Hl, <- (valid_length a Va) in Hblock.
  split; [|split; [done|split; [done|]]].
  - split; cbn [shape_ data_].
    + apply Forall_drop, (valid_dims _ Va).
    + unfold size. cbn [shape_ data_]. rewrite length_take, length_drop.
      rewrite Nat.min_l by lia.
      rewrite get_size_nsize; [done|]. apply Forall_drop, (valid_dims _ Va).
  - intros Hfull. rewrite Hfull, drop_all in *. rewrite nsize_nil in *.
    destruct (lookup_lt_is_Some_2 (data_ a)
                (flat_index (shape_ a) (resolve_all (shape_ a) idx))) as [c Hc]; [lia|].
    exists c. split; [done|]. f_equal.
    rewrite (drop_S _ _ _ Hc). cbn [take]. by rewrite take_0.
Qed.

Lemma subscripts_row_major_witness :
  let a := mk_ndarray [2; 1; 3] [10; 11; 12; 13; 14; 15]%nat in
  let idx := [-1; 0; 1] in
  exists x,
    subscripts a idx = Ok x
    ∧ valid x
    ∧ shape x = drop (length idx) (shape a)
    ∧ data_ x = take (nsize (shape x))
                  (drop (flat_index (shape a) (resolve_all (shape a) idx)) (data_ a))
    ∧ (length idx = length (shape a) ->
       exists c, data_ a !! flat_index (shape a) (resolve_all (shape a) idx) = Some c
                 ∧ x = mk_ndarray [] [c]).
Proof.
  intros a idx. apply (subscripts_row_major a idx).
  - split; [repeat constructor; lia|reflexivity].
  - repeat constructor; simpl; lia.
Defined.

(** X6. [slice] with integer arguments only is the chain of [operator[]]
    over the same integers, with the same result and the same failure,
    unless there are more arguments than axes: then it throws an
    [IndexError] without looking at any of them. *)
Theorem slice_indices (a : ndarray) (idx : list Z) :
  slice a (Idx <$> idx)
  = if bool_decide (Z.of_nat (length idx) > ndim a) then Raise IndexError
    else subscripts a idx.
Proof.
  unfold slice. rewrite length_fmap. case_bool_decide; [done|].
  apply slice_impl_indices. lia.
Qed.

(** X7. One range on the leading axis of a valid array whose rows have
    cells: when the resolved and clamped bounds [lo < hi] select a row at
    all, the slice is the view of shape [(hi - lo) :: s] on the contiguous
    block of the rows [lo .. hi - 1], and indexing the slice at [i] is
    indexing the array at [lo + i]. *)
Theorem slice_range_block (d : Z) (s : Shape) (data : Data) (first second : Z) :
  let a := mk_ndarray (d :: s) data in
  let lo := range_lo d first in
  let hi := range_hi d second in
  valid a -> lo < hi -> get_size s ≠ 0 ->
  exists v,
    slice a [Range first second] = Ok v
    ∧ shape v = (hi - lo) :: s
    ∧ data_ v = take (Z.to_nat (hi - lo) * nsize s) (drop (Z.to_nat lo * nsize s) data)
    ∧ forall i, 0 ≤ i < hi - lo -> subscript v i = subscript a (lo + i).
Proof.
  intros a lo hi Va Hlt Hsz.
  pose proof (valid_cons_shape _ _ _ Va) as (Hd & Hs & Hlen).
  assert (0 ≤ lo ∧ hi ≤ d) as [Hlo Hhi] by (unfold lo, hi, range_lo, range_hi; lia).
  unfold slice, a. rewrite bool_decide_eq_false_2 by (unfold ndim; cbn [shape_ length]; lia).
  rewrite slice_impl_range by done. fold lo hi.
  set (g := fun i => mk_ndarray s (take (nsize s) (drop (Z.to_nat i * nsize s) data))).
  rewrite (for_each_fmap _ g); cycle 1.
  { intros i Hi. apply elem_of_seqZ in Hi.
    rewrite subscript_in_range by (done || lia). cbn [mbind result_bind].
    unfold slice. by rewrite bool_decide_eq_false_2 by (unfold ndim; cbn [length]; lia). }
  cbn [mbind result_bind].
  rewrite (gather_spec _ s); cycle 1.
  { apply list.Forall_forall. intros x Hx. apply list_elem_of_fmap in Hx as (i & -> & Hi).
    apply elem_of_seqZ in Hi. split; [|done]. apply (subscript_valid d); [done|lia]. }
  rewrite bool_decide_eq_false_2; cycle 1.
  { intros [Hnil | Hz]; [|done]. apply (f_equal length) in Hnil.
    rewrite length_fmap, length_seqZ in Hnil. cbn [length] in Hnil. lia. }
  rewrite length_fmap, length_seqZ, Z2Nat.id by lia.
  unfold g; rewrite concat_blocks by lia.
  eexists. split; [done|]. cbn [shape shape_ data_]. do 2 (split; [done|]).
  intros i Hi.
  assert (valid (mk_ndarray ((hi - lo) :: s)
            (take (Z.to_nat (hi - lo) * nsize s) (drop (Z.to_nat lo * nsize s) data)))) as Vv.
  { split; cbn [shape_ data_].
    - constructor; [lia|done].
    - unfold size. cbn [data_]. rewrite length_take, length_drop, get_size_cons.
      rewrite (get_size_nsize s) by done. nia. }
  rewrite !subscript_in_range by (done || lia). do 2 f_equal.
  rewrite take_drop_take by nia. rewrite drop_drop. do 2 f_equal. nia.
Qed.

Lemma slice_range_block_witness :
  let d := 4 in
  let s := [2] in
  let data := [10; 11; 12; 13; 14; 15; 16; 17]%nat in
  let a := mk_ndarray (d :: s) data in
  let lo := range_lo d (-3) in
  let hi := range_hi d 9 in
  exists v,
    slice a [Range (-3) 9] = Ok v
    ∧ shape v = (hi - lo) :: s
    ∧ data_ v = take (Z.to_nat (hi - lo) * nsize s) (drop (Z.to_nat lo * nsize s) data)
    ∧ forall i, 0 ≤ i < hi - lo -> subscript v i = subscript a (lo + i).
Proof.
  intros d s data a lo hi. apply (slice_range_block d s data (-3) 9).
  - split; [repeat constructor; lia|reflexivity].
  - vm_compute. reflexivity.
  - vm_compute. discriminate.
Defined.

(** X8. Slicing a valid array that has cells with the full range [0:d] on
    each of its first [k] axes gives back the array itself: the same shape
    and the same cells in the same order.  So does [slice] without
    arguments, on any array. *)
Theorem slice_full_ranges (k : nat) : forall a : ndarray,
  valid a -> get_size (shape a) ≠ 0 ->
  slice a ((fun d => Range 0 d) <$> take k (shape a)) = Ok a.
Proof.
  unfold shape. induction k as [|k IH]; intros [sh data] Va Hsz; cbn [shape_] in *.
  { rewrite take_0. unfold slice. cbn [fmap list_fmap length slice_impl].
    by rewrite bool_decide_eq_false_2 by (unfold ndim; lia). }
  destruct sh as [|d s].
  { unfold slice. cbn [take fmap list_fmap length slice_impl].
    by rewrite bool_decide_eq_false_2 by (unfold ndim; cbn [shape_ length]; lia). }
  pose proof (valid_cons_shape _ _ _ Va) as (Hd & Hs & Hlen).
  rewrite get_size_cons in Hsz.
  assert (0 < d) as Hd0 by (destruct (decide (d = 0)) as [-> |]; lia).
  assert (get_size s ≠ 0) as Hs0 by (intros Hz; rewrite Hz in Hsz; lia).
  unfold slice. cbn [take fmap list_fmap].
  rewrite bool_decide_eq_false_2; cycle 1.
  { unfold ndim. cbn [shape_ length]. rewrite length_fmap, length_take. lia. }
  rewrite slice_impl_range by done.
  rewrite range_lo_full, range_hi_full, Z.sub_0_r by done.
  set (g := fun i => mk_ndarray s (take (nsize s) (drop (Z.to_nat i * nsize s) data))).
  rewrite (for_each_fmap _ g); cycle 1.
  { intros i Hi. apply elem_of_seqZ in Hi.
    rewrite subscript_in_range by (done || lia). cbn [mbind result_bind].
    apply (IH (mk_ndarray s _)); [|done].
    apply (subscript_valid d); [done|lia]. }
  cbn [mbind result_bind].
  rewrite (gather_spec _ s); cycle 1.
  { apply list.Forall_forall. intros x Hx. apply list_elem_of_fmap in Hx as (i & -> & Hi).
    apply elem_of_seqZ in Hi. split; [|done]. apply (subscript_valid d); [done|lia]. }
  rewrite bool_decide_eq_false_2; cycle 1.
  { intros [Hnil | Hz]; [|done]. apply (f_equal length) in Hnil.
    rewrite length_fmap, length_seqZ in Hnil. cbn [length] in Hnil. lia. }
  rewrite length_fmap, length_seqZ, Z2Nat.id by lia.
  unfold g; rewrite concat_blocks by lia.
  change (Z.to_nat 0 * nsize s)%nat with 0%nat. rewrite drop_0.
  rewrite take_ge by lia. done.
Qed.

Lemma slice_full_ranges_witness :
  let a := mk_ndarray [2; 1; 3] [10; 11; 12; 13; 14; 15]%nat in
  slice a ((fun d => Range 0 d) <$> take 2 (shape a)) = Ok a.
Proof.
  intros a. apply (slice_full_ranges 2 a).
  - split; [repeat constructor; lia|reflexivity].
  - vm_compute. discriminate.
Defined.

(** ** Constructors, cell by cell *)



Lemma to_scalar_cell {T} (h : Heap T) c v :
  h !! c = Some v -> to_scalar (mk_ndarray [] [c]) h = Ret v h.
Proof. intros Hc. unfold to_scalar. cbn. by rewrite Hc. Qed.


Lemma bounds_positive idx : forall s,
  Forall2 (fun i d => - d ≤ i < d) idx s -> Forall (fun d => 0 ≤ d) s.
Proof. induction 1; constructor; [lia|done]. Qed.

Lemma take_block_concat {A} (n : nat) (ls : list (list A)) : forall i b,
  Forall (fun b => length b = n) ls -> ls !! i = Some b ->
  take n (drop (i * n) (concat ls)) = b.
Proof.
  induction ls as [|x ls IH]; intros i b Hall Hb; [done|].
  apply list.Forall_cons in Hall as [Hx Hall]. cbn [concat].
  destruct i as [|i]; cbn in Hb.
  - injection Hb as ->. rewrite drop_0. rewrite take_app_le by lia.
    apply take_ge. lia.
  - replace (S i * n)%nat with (length x + i * n)%nat by lia.
    rewrite drop_app_add. by apply IH.
Qed.


Lemma flat_index_resolved_lt s idx :
  Forall2 (fun i d => - d ≤ i < d) idx s ->
  (flat_index s (resolve_all s idx) < nsize s)%nat.
Proof.
  intros Hidx. apply flat_index_lt; [by eapply bounds_positive|].
  pose proof (list.Forall2_length _ _ _ Hidx) as Hlen.
  destruct (resolve_all_bounds s idx) as [Hl Hb]; [by rewrite Hlen, take_ge|].
  by rewrite Hl, Hlen, take_ge in Hb.
Qed.

(** ** Constructors *)





(** X11. Conversion to a scalar looks at the number of cells only, not at
    the rank: an array with exactly one (allocated) cell converts to the
    content of that cell whatever its shape, any other number of cells is a
    [TypeError], and the arena is left as it is.  In particular [scalar(v)]
    converts back to [v]. *)
Theorem to_scalar_spec {T : Type} (a : ndarray) (h : Heap T) :
  live h a ->
  (size a ≠ 1 -> to_scalar a h = Throw TypeError h)
  ∧ (size a = 1 ->
     exists c v, data_ a = [c] ∧ h !! c = Some v ∧ to_scalar a h = Ret v h)
  ∧ (forall v, and_then (scalar v h) to_scalar = Ret v (h ++ [v])).
Proof.
  intros La. unfold to_scalar. split; [|split].
  - intros Hsz. by rewrite bool_decide_eq_true_2.
  - intros Hsz. rewrite bool_decide_eq_false_2 by (by intros Hc; apply Hc).
    unfold size in Hsz. destruct (data_ a) as [|c [|c' cs]] eqn:Hd; cbn in Hsz; try lia.
    unfold live in La. rewrite Hd in La. apply list.Forall_cons in La as [Hc _].
    destruct (lookup_lt_is_Some_2 h c Hc) as [v Hv].
    exists c, v. by rewrite Hv.
  - intros v. unfold scalar, make_shared, and_then, size. cbn.
    by rewrite lookup_app_r, Nat.sub_diag by lia.
Qed.

Lemma to_scalar_spec_witness :
  let a := mk_ndarray [1; 1] [1%nat] in
  let h := [4; 5] in
  (size a ≠ 1 -> to_scalar a h = Throw TypeError h)
  ∧ (size a = 1 ->
     exists c v, data_ a = [c] ∧ h !! c = Some v ∧ to_scalar a h = Ret v h)
  ∧ (forall v, and_then (scalar v h) to_scalar = Ret v (h ++ [v])).
Proof. intros a h. apply (to_scalar_spec a h). repeat constructor. Defined.

(** X12. The flat literal [ndarray{x0, ..., xk}]: a one-axis array of
    [k + 1] new cells that hold the listed values in order, so that the
    element read at an index [i] within [-len, len) is the listed value at
    the resolved position. *)
Theorem ndarray_flat_spec {T : Type} (ary : list T) (h : Heap T) :
  exists a h',
    ndarray_flat ary h = Ret a h'
    ∧ shape a = [Z.of_nat (length ary)]
    ∧ data_ a = seq (length h) (length ary)
    ∧ h' = h ++ ary
    ∧ forall i, - Z.of_nat (length ary) ≤ i < Z.of_nat (length ary) ->
        exists x, ary !! Z.to_nat (resolved (Z.of_nat (length ary)) i) = Some x
                  ∧ and_then (lift (subscript a i) h') to_scalar = Ret x h'.
Proof.
  unfold ndarray_flat. rewrite transform_data_spec.
  eexists _, _. split; [done|]. cbn [shape shape_ data_]. do 3 (split; [done|]).
  intros i Hi. set (n := Z.of_nat (length ary)) in *.
  assert (Z.to_nat (resolved n i) < length ary)%nat as Hlt
    by (unfold resolved; case_bool_decide; lia).
  destruct (lookup_lt_is_Some_2 ary _ Hlt) as [x Hx]. exists x. split; [done|].
  assert (valid (mk_ndarray [n] (seq (length h) (length ary)))) as Va.
  { split; [repeat constructor; lia|]. unfold size. cbn [shape_ data_].
    rewrite length_seq, get_size_cons, get_size_nil. lia. }
  rewrite subscript_resolved by done. rewrite nsize_nil, Nat.mul_1_r.
  rewrite (drop_S _ (length h + Z.to_nat (resolved n i))%nat)
    by (by apply lookup_seq_lt).
  cbn [take lift and_then]. rewrite take_0. apply to_scalar_cell.
  rewrite lookup_app_r by lia. rewrite <- Hx. f_equal. lia.
Qed.

(** X13. The nested literal, when it is built: from a non-empty list of
    valid arrays of one shape [ss] that have cells, the literal has the
    shape [count :: ss], satisfies the size invariant, takes no new cell
    (its cells are the sub-arrays' own, in order), and indexing it at [i]
    gives back the [i]-th sub-array. *)
Theorem ndarray_nested_index (ary : list ndarray) (ss : Shape) (i : nat) (sub : ndarray) :
  Forall (fun sub => valid sub ∧ shape_ sub = ss) ary -> get_size ss ≠ 0 ->
  ary !! i = Some sub ->
  shape (ndarray_nested ary) = Z.of_nat (length ary) :: ss
  ∧ data_ (ndarray_nested ary) = concat (data_ <$> ary)
  ∧ valid (ndarray_nested ary)
  ∧ subscript (ndarray_nested ary) (Z.of_nat i) = Ok sub.
Proof.
  intros Hall Hsz Hi.
  assert (ary ≠ []) as Hne by (by destruct ary).
  destruct (valid_nested ary ss Hne Hall Hsz) as [Heq Hv].
  rewrite Heq in *. cbn [shape shape_ data_]. do 3 (split; [done|]).
  pose proof (lookup_lt_Some _ _ _ Hi) as Hlt.
  rewrite subscript_in_range by (done || lia). rewrite Nat2Z.id.
  rewrite list.Forall_forall in Hall.
  destruct (Hall sub (list_elem_of_lookup_2 _ _ _ Hi)) as [Vs Hss].
  rewrite (take_block_concat _ _ i (data_ sub)).
  - destruct sub as [sh dt]. cbn in *. by subst.
  - apply list.Forall_forall. intros b Hb.
    apply list_elem_of_fmap in Hb as (x & -> & Hx).
    destruct (Hall x Hx) as [Vx Hxs]. by rewrite valid_length, Hxs.
  - by rewrite list_lookup_fmap, Hi.
Qed.

Lemma ndarray_nested_index_witness :
  let r0 := mk_ndarray [2] [0; 1]%nat in
  let r1 := mk_ndarray [2] [5; 3]%nat in
  shape (ndarray_nested [r0; r1]) = Z.of_nat (length [r0; r1]) :: [2]
  ∧ data_ (ndarray_nested [r0; r1]) = concat (data_ <$> [r0; r1])
  ∧ valid (ndarray_nested [r0; r1])
  ∧ subscript (ndarray_nested [r0; r1]) (Z.of_nat 1) = Ok r1.
Proof.
  intros r0 r1. apply (ndarray_nested_index [r0; r1] [2] 1 r1).
  - repeat constructor; simpl; lia.
  - vm_compute. discriminate.
  - reflexivity.
Defined.

(** X14. [astype] always copies: on a valid array whose cells are
    allocated it returns an array of the same shape whose cells are all
    new, one per cell of the source and in the same order, each holding
    the converted content; nothing that existed is written. *)
Theorem astype_copy {T U : Type} (cast : T -> U) (a : ndarray) (h : Heap T) (hu : Heap U) :
  valid a -> live h a ->
  exists r hu',
    astype cast a h hu = Ret r hu'
    ∧ shape r = shape a
    ∧ valid r
    ∧ data_ r = seq (length hu) (length (data_ a))
    ∧ hu' = hu ++ (cast <$> contents h (data_ a))
    ∧ contents hu' (data_ r) = cast <$> contents h (data_ a).
Proof.
  intros Va La. unfold astype. rewrite astype_loop_spec by done.
  eexists _, _. split; [done|]. cbn [shape shape_ data_]. split; [done|].
  split; [|split; [done|split; [done|]]].
  - split; [apply (valid_dims _ Va)|]. unfold size. cbn [shape_ data_].
    rewrite length_seq. apply (valid_size _ Va).
  - apply contents_fresh. by rewrite length_fmap, length_contents.
Qed.

Lemma astype_copy_witness :
  let a := mk_ndarray [2] [1; 0]%nat in
  let h := [3; -4] in
  let hu := [true] in
  exists r hu',
    astype (fun z => bool_decide (0 ≤ z)) a h hu = Ret r hu'
    ∧ shape r = shape a
    ∧ valid r
    ∧ data_ r = seq (length hu) (length (data_ a))
    ∧ hu' = hu ++ ((fun z => bool_decide (0 ≤ z)) <$> contents h (data_ a))
    ∧ contents hu' (data_ r) = (fun z => bool_decide (0 ≤ z)) <$> contents h (data_ a).
Proof.
  intros a h hu. apply (astype_copy (fun z => bool_decide (0 ≤ z)) a h hu).
  - split; [repeat constructor; lia|reflexivity].
  - repeat constructor; simpl; lia.
Defined.

(** ** Assignment, cell by cell *)

Lemma assign_loop_fill {T} (r : Value) (x : T) data : forall h,
  Forall (fun c => c < length h)%nat data -> r ∉ data -> h !! r = Some x ->
  exists h', assign_loop data (replicate (length data) r) h = Some h'
             ∧ forall c, c ∈ data -> h' !! c = Some x.
Proof.
  induction data as [|c data IH]; intros h Hlive Hr Hx.
  - exists h. split; [done|]. intros c Hc. by apply elem_of_nil in Hc.
  - apply list.Forall_cons in Hlive as [Hc Hlive].
    apply not_elem_of_cons in Hr as [Hrc Hr].
    cbn [length replicate assign_loop]. rewrite Hx, bool_decide_eq_true_2 by done.
    destruct (IH (<[c:=x]> h)) as (h' & Hloop & Hall).
    + by rewrite length_insert.
    + done.
    + by rewrite list_lookup_insert_ne.
    + exists h'. split; [done|]. intros c' Hc'.
      destruct (decide (c' ∈ data)) as [Hin | Hnin]; [by apply Hall|].
      apply elem_of_cons in Hc' as [-> | Hc']; [|done].
      destruct (assign_loop_frame _ _ _ _ Hloop) as [_ Hframe].
      rewrite Hframe by done. by apply list_lookup_insert_eq.
Qed.

Lemma assign_loop_self {T} data : forall h : Heap T,
  Forall (fun c => c < length h)%nat data -> assign_loop data data h = Some h.
Proof.
  induction data as [|c data IH]; intros h Hlive; [done|].
  apply list.Forall_cons in Hlive as [Hc Hlive].
  destruct (lookup_lt_is_Some_2 h c Hc) as [v Hv].
  cbn [assign_loop]. rewrite Hv, bool_decide_eq_true_2 by done.
  rewrite list_insert_id by done. by apply IH.
Qed.

Lemma assign_aligned {T} (v other : ndarray) (h : Heap T) s :
  valid v -> valid other ->
  align (shape_ v) (shape_ other) false = Some s ->
  assign v other h
  = match assign_loop (data_ v) (broadcast_cells (shape_ other) s (data_ other)) h with
    | Some h' => Ret v h'
    | None => Undefined
    end
  ∧ length (broadcast_cells (shape_ other) s (data_ other)) = length (data_ v).
Proof.
  intros Vv Vo Hal. unfold assign, shape.
  pose proof (braodcast_spec false (shape_ v) (shape_ other) (data_ v) (data_ other)
                (valid_dims _ Vv) (valid_dims _ Vo)
                (valid_length _ Vv) (valid_length _ Vo)) as Hb.
  pose proof (align_false_spec (shape_ v) (shape_ other)) as Ha.
  rewrite Hal in Hb, Ha. destruct Hb as (-> & _ & Hgo). destruct Ha as [Hs _].
  split; [done|].
  rewrite length_broadcast_cells by (done || by apply valid_length).
  rewrite (valid_length v) by done. by rewrite Hs, nsize_pad_shape.
Qed.

Lemma assign_distinct {T} (v other : ndarray) (h : Heap T) s :
  valid v -> valid other -> live h v -> live h other ->
  NoDup (data_ v) -> (forall c, c ∈ data_ other -> c ∉ data_ v) ->
  align (shape_ v) (shape_ other) false = Some s ->
  exists h',
    assign v other h = Ret v h'
    ∧ length h' = length h
    ∧ contents h' (data_ v) = contents h (broadcast_cells (shape_ other) s (data_ other))
    ∧ (forall c, c ∉ data_ v -> h' !! c = h !! c).
Proof.
  intros Vv Vo Lv Lo Hnd Hdisj Hal.
  destruct (assign_aligned v other h s Vv Vo Hal) as [-> Hlen].
  set (bc := broadcast_cells (shape_ other) s (data_ other)) in *.
  assert (Forall (fun c => c < length h)%nat bc) as Lbc by (by apply Forall_broadcast_to).
  destruct (assign_loop_total (data_ v) bc h) as [h' Hloop]; [done..|].
  rewrite Hloop. exists h'. split; [done|].
  destruct (assign_loop_frame _ _ _ _ Hloop) as [Hl Hframe].
  split; [done|]. split; [|done].
  assert (forall c, c ∈ bc -> c ∉ data_ v) as Hdisj'.
  { intros c Hc. apply Hdisj.
    assert (Forall (fun c => c ∈ data_ other) bc) as Hall.
    { apply Forall_broadcast_to. by apply list.Forall_forall. }
    rewrite list.Forall_forall in Hall. by apply Hall. }
  pose proof (assign_loop_written _ _ _ _ Hnd Hdisj' Hloop) as Hwritten.
  apply contents_ext; [by rewrite Hl|done|done|].
  intros i c c' Hc Hc'. by eapply Hwritten.
Qed.

Lemma contents_take {T} (h : Heap T) cells : forall k,
  Forall (fun c => c < length h)%nat cells ->
  contents h (take k cells) = take k (contents h cells).
Proof.
  intros k Hlive. revert k. induction Hlive as [|c cells Hc _ IH]; intros k.
  - rewrite take_nil. cbn. by rewrite take_nil.
  - destruct (lookup_lt_is_Some_2 h c Hc) as [v Hv].
    destruct k as [|k]; [by rewrite !take_0|]. cbn [take].
    rewrite !contents_unfold, Hv. cbn [take]. by rewrite IH.
Qed.

Lemma contents_drop {T} (h : Heap T) cells : forall k,
  Forall (fun c => c < length h)%nat cells ->
  contents h (drop k cells) = drop k (contents h cells).
Proof.
  intros k Hlive. revert k. induction Hlive as [|c cells Hc _ IH]; intros k.
  - rewrite drop_nil. cbn. by rewrite drop_nil.
  - destruct (lookup_lt_is_Some_2 h c Hc) as [v Hv].
    destruct k as [|k]; [by rewrite !drop_0|]. cbn [drop].
    rewrite contents_unfold, Hv. cbn [drop]. by rewrite IH.
Qed.

Lemma assign_scalar_Ret {T} (target : ndarray) (x : T) (h : Heap T) :
  valid target -> live h target ->
  exists h',
    assign_scalar target x h = Ret target h'
    ∧ length h' = S (length h)
    ∧ (forall c, c ∈ data_ target -> h' !! c = Some x)
    ∧ (forall c, (c < length h)%nat -> c ∉ data_ target -> h' !! c = h !! c).
Proof.
  intros Vt Lt. unfold assign_scalar, scalar, make_shared, and_then.
  set (s := mk_ndarray [] [length h]). set (h1 := h ++ [x]).
  assert (valid s) as Vs by (split; [constructor|reflexivity]).
  destruct (assign_aligned target s h1 (shape_ target) Vt Vs (align_scalar_r _ _))
    as [-> _].
  unfold s; cbn [shape_ data_].
  rewrite broadcast_cells_scalar by apply (valid_dims _ Vt).
  rewrite <- (valid_length _ Vt).
  destruct (assign_loop_fill (length h) x (data_ target) h1) as (h' & Hloop & Hall).
  - apply (live_grow h [x] target Lt).
  - intros Hin. unfold live in Lt. rewrite list.Forall_forall in Lt.
    apply Lt in Hin. lia.
  - unfold h1. by rewrite lookup_app_r, Nat.sub_diag by lia.
  - rewrite Hloop. exists h'. split; [done|].
    destruct (assign_loop_frame _ _ _ _ Hloop) as [Hlen Hframe].
    split; [|split; [done|]].
    + rewrite Hlen. unfold h1. rewrite length_app. simpl. lia.
    + intros c Hc Hnin. rewrite Hframe by done. unfold h1. by rewrite lookup_app_l.
Qed.

(** ** Assignment *)

(** X15. Assigning a scalar to a valid array fills it: the call returns
    the target itself, the target then reads as the scalar at every
    position, and every other cell that existed holds what it held.  The
    only allocation is the one cell of the promoted scalar.  No condition on
    the target's cells being distinct is needed. *)
Theorem assign_scalar_fill {T : Type} (target : ndarray) (x : T) (h : Heap T) :
  valid target -> live h target ->
  exists h',
    assign_scalar target x h = Ret target h'
    ∧ length h' = S (length h)
    ∧ contents h' (data_ target) = replicate (length (data_ target)) x
    ∧ (forall c, (c < length h)%nat -> c ∉ data_ target -> h' !! c = h !! c).
Proof.
  intros Vt Lt.
  destruct (assign_scalar_Ret target x h Vt Lt) as (h' & Has & Hlen & Hfill & Hframe).
  exists h'. do 2 (split; [done|]). split; [|done].
  clear Has Hframe Lt Vt. induction (data_ target) as [|c cells IH]; [done|].
  rewrite contents_unfold, (Hfill c) by apply list_elem_of_here.
  cbn [length replicate]. f_equal. apply IH.
  intros c' Hc'. by apply Hfill, list_elem_of_further.
Qed.

Lemma assign_scalar_fill_witness :
  let target := mk_ndarray [2; 2] [0; 1; 0; 1]%nat in
  let h := [1; 2; 3] in
  exists h',
    assign_scalar target 9 h = Ret target h'
    ∧ length h' = S (length h)
    ∧ contents h' (data_ target) = replicate (length (data_ target)) 9
    ∧ (forall c, (c < length h)%nat -> c ∉ data_ target -> h' !! c = h !! c).
Proof.
  intros target h. apply (assign_scalar_fill target 9 h).
  - split; [repeat constructor; lia|reflexivity].
  - repeat constructor; simpl; lia.
Defined.

(** X16. Assignment through an index: on a valid array [a] of shape
    [d :: s] whose cells are pairwise distinct, [a[i] = other], for [i]
    within [-d, d) and a right-hand side that shares no cell with [a] and
    whose shape aligns with [s], returns, and [a] then reads as before
    except for the block of the resolved row [i], which reads as [other]
    read at the aligned shape.  Nothing is allocated and [other] is not
    changed. *)
Theorem subscript_assign_block {T : Type} (d : Z) (s : Shape) (data : Data) (i : Z)
    (other : ndarray) (s' : Shape) (h : Heap T) :
  let a := mk_ndarray (d :: s) data in
  let row := Z.to_nat (resolved d i) in
  valid a -> live h a -> NoDup data ->
  valid other -> live h other -> (forall c, c ∈ data_ other -> c ∉ data) ->
  - d ≤ i < d ->
  align s (shape other) false = Some s' ->
  exists v h',
    subscript a i = Ok v
    ∧ assign v other h = Ret v h'
    ∧ length h' = length h
    ∧ contents h' data
      = take (row * nsize s) (contents h data)
        ++ contents h (broadcast_cells (shape other) s' (data_ other))
        ++ drop (row * nsize s + nsize s) (contents h data)
    ∧ contents h' (data_ other) = contents h (data_ other).
Proof.
  intros a row Va La Hnd Vo Lo Hdisj Hi Hal. unfold a.
  rewrite subscript_resolved by done. fold row.
  set (block := take (nsize s) (drop (row * nsize s) data)).
  assert (data = take (row * nsize s) data ++ block
                 ++ drop (row * nsize s + nsize s) data) as Hsplit.
  { unfold block. rewrite <- drop_drop.
    by rewrite (take_drop (nsize s)), take_drop. }
  assert (NoDup (take (row * nsize s) data ++ block
                 ++ drop (row * nsize s + nsize s) data)) as Hnd'
    by (by rewrite <- Hsplit).
  apply list.NoDup_app in Hnd' as (_ & Hpre & Hnd').
  apply list.NoDup_app in Hnd' as (Hndb & Hpost & _).
  assert (forall c, c ∈ block -> c ∈ data) as Hsub.
  { intros c Hc. rewrite Hsplit. apply elem_of_app. right. apply elem_of_app. by left. }
  unfold live in La. cbn [data_] in La.
  assert (valid (mk_ndarray s block)) as Vv.
  { apply (subscript_valid d); [done|]. unfold row, resolved. case_bool_decide; lia. }
  destruct (assign_distinct (mk_ndarray s block) other h s') as (h' & Has & Hlen & Hc & Hframe);
    try done.
  { unfold live. cbn [data_]. apply list.Forall_forall. intros c Hin.
    rewrite list.Forall_forall in La. by apply La, Hsub. }
  { cbn [data_]. intros c Hin Hb. by apply (Hdisj c), Hsub. }
  cbn [shape_ data_] in *.
  eexists _, h'. split; [done|]. do 2 (split; [done|]). split.
  - rewrite Hsplit at 1. rewrite !contents_app, Hc.
    rewrite (contents_frame h h' (take _ data)); cycle 1.
    { intros c Hin. apply Hframe. intros Hb.
      apply (Hpre c Hin), elem_of_app. by left. }
    rewrite (contents_frame h h' (drop _ data)); cycle 1.
    { intros c Hin. apply Hframe. intros Hb. by apply (Hpost c Hb). }
    by rewrite contents_take, contents_drop.
  - apply contents_frame. intros c Hin. apply Hframe. intros Hb.
    by apply (Hdisj c), Hsub.
Qed.

Lemma subscript_assign_block_witness :
  let h := [1; 2; 3; 4; 5; 6; 7; 8] in
  let other := mk_ndarray [1] [6%nat] in
  exists v h',
    subscript (mk_ndarray [3; 2] [0; 1; 2; 3; 4; 5]%nat) (-2) = Ok v
    ∧ assign v other h = Ret v h'
    ∧ length h' = length h
    ∧ contents h' [0; 1; 2; 3; 4; 5]%nat
      = take (Z.to_nat (resolved 3 (-2)) * nsize [2]) (contents h [0; 1; 2; 3; 4; 5]%nat)
        ++ contents h (broadcast_cells (shape other) [2] (data_ other))
        ++ drop (Z.to_nat (resolved 3 (-2)) * nsize [2] + nsize [2])
             (contents h [0; 1; 2; 3; 4; 5]%nat)
    ∧ contents h' (data_ other) = contents h (data_ other).
Proof.
  intros h other.
  apply (subscript_assign_block 3 [2] [0; 1; 2; 3; 4; 5]%nat (-2) other [2] h).
  - split; [repeat constructor; lia|reflexivity].
  - repeat constructor; simpl; lia.
  - apply NoDup_ListNoDup. repeat constructor; simpl; intuition lia.
  - split; [repeat constructor; lia|reflexivity].
  - repeat constructor; simpl; lia.
  - intros c Hc Hin. apply list_elem_of_singleton in Hc as ->.
    repeat (apply elem_of_cons in Hin as [Hin | Hin]; [lia|]). by apply elem_of_nil in Hin.
  - lia.
  - reflexivity.
Defined.

(** X17. Assigning a valid array to itself changes nothing: the call
    returns the array and the arena exactly as it was. *)
Theorem assign_self {T : Type} (a : ndarray) (h : Heap T) :
  valid a -> live h a -> assign a a h = Ret a h.
Proof.
  intros Va La.
  destruct (assign_aligned a a h (shape_ a) Va Va (align_same _ _)) as [-> _].
  rewrite broadcast_cells_same by (apply (valid_dims _ Va) || by apply valid_length).
  by rewrite assign_loop_self.
Qed.

Lemma assign_self_witness :
  let a := mk_ndarray [2; 1] [1; 1]%nat in
  assign a a [4; 5] = Ret a [4; 5].
Proof.
  intros a. apply (assign_self a [4; 5]).
  - split; [repeat constructor; lia|reflexivity].
  - repeat constructor; simpl; lia.
Defined.

(** X18. Writing one element, [a[i1]...[ik] = x] with one index per axis of
    a valid array whose cells are pairwise distinct: the chain of indices
    gives the one-cell view of the element, the scalar assignment returns
    it, and afterwards the array reads as before except at the row-major
    position of the multi-index, where it reads [x]. *)
Theorem element_assign {T : Type} (a : ndarray) (idx : list Z) (x : T) (h : Heap T) :
  valid a -> live h a -> NoDup (data_ a) ->
  Forall2 (fun i d => - d ≤ i < d) idx (shape a) ->
  exists v h',
    subscripts a idx = Ok v
    ∧ assign_scalar v x h = Ret v h'
    ∧ contents h' (data_ a)
      = <[flat_index (shape a) (resolve_all (shape a) idx) := x]> (contents h (data_ a)).
Proof.
  unfold shape. intros Va La Hnd Hidx.
  pose proof (list.Forall2_length _ _ _ Hidx) as Hlen.
  assert (Forall2 (fun i d => - d ≤ i < d) idx (take (length idx) (shape_ a))) as Hidx'
    by (by rewrite Hlen, take_ge).
  rewrite subscripts_spec by done. rewrite Hlen, drop_all, nsize_nil.
  set (p := flat_index (shape_ a) (resolve_all (shape_ a) idx)).
  pose proof (flat_index_resolved_lt _ _ Hidx) as Hp. fold p in Hp.
  rewrite <- (valid_length _ Va) in Hp.
  destruct (lookup_lt_is_Some_2 (data_ a) p Hp) as [c Hc].
  rewrite (drop_S _ _ _ Hc). cbn [take]. rewrite take_0.
  set (v := mk_ndarray [] [c]).
  assert (valid v) as Vv by (split; [constructor|reflexivity]).
  assert (c < length h)%nat as Hcl.
  { unfold live in La. rewrite list.Forall_forall in La.
    by eapply La, list_elem_of_lookup_2. }
  assert (live h v) as Lv by (unfold live, v; cbn [data_]; by repeat constructor).
  destruct (assign_scalar_Ret v x h Vv Lv) as (h' & Has & Hl & Hfill & Hframe).
  exists v, h'. split; [done|]. split; [done|].
  assert (Forall (fun c => c < length h')%nat (data_ a)) as La'.
  { eapply Forall_impl; [|exact La]. cbn. lia. }
  apply list_eq. intros j.
  rewrite contents_lookup_bind by done.
  destruct (decide (j = p)) as [-> | Hj].
  - rewrite Hc. cbn [mbind option_bind].
    rewrite list_lookup_insert_eq by (by rewrite length_contents).
    apply Hfill. unfold v. cbn [data_]. apply list_elem_of_here.
  - rewrite list_lookup_insert_ne by done. rewrite contents_lookup_bind by done.
    destruct (data_ a !! j) as [c'|] eqn:Hc'; [|done]. cbn [mbind option_bind].
    apply Hframe.
    + unfold live in La. rewrite list.Forall_forall in La.
      by eapply La, list_elem_of_lookup_2.
    + unfold v. cbn [data_]. intros Hin. apply list_elem_of_singleton in Hin as ->.
      apply Hj. by eapply NoDup_lookup.
Qed.

Lemma element_assign_witness :
  let a := mk_ndarray [2; 1; 2] [0; 1; 2; 3]%nat in
  let h := [10; 11; 12; 13] in
  let idx := [-1; -1; -1] in
  exists v h',
    subscripts a idx = Ok v
    ∧ assign_scalar v 5566 h = Ret v h'
    ∧ contents h' (data_ a)
      = <[flat_index (shape a) (resolve_all (shape a) idx) := 5566]> (contents h (data_ a)).
Proof.
  intros a h idx. apply (element_assign a idx 5566 h).
  - split; [repeat constructor; lia|reflexivity].
  - repeat constructor; simpl; lia.
  - apply NoDup_ListNoDup. repeat constructor; simpl; intuition lia.
  - repeat constructor; simpl; lia.
Defined.

(** ** [braodcast] on behalf of assignment *)

Lemma loop_pairs_false_keeps ps : forall st st',
  loop_pairs false ps st = Ok (Some st') ->
  b_ldata st' = b_ldata st ∧ b_shape st' = b_shape st ++ ps.*1.
Proof.
  induction ps as [|[ldim rdim] ps IH]; intros st st' Hloop.
  - cbn in Hloop. injection Hloop as <-. by rewrite app_nil_r.
  - cbn [loop_pairs fst snd] in Hloop.
    destruct (braodcast_body false ldim rdim st) as [[st1|]| |] eqn:Hbody; try done.
    destruct (IH _ _ Hloop) as [Hd Hs]. rewrite Hd, Hs.
    destruct st as [lsize rsize ldata rdata shape]. unfold braodcast_body in Hbody.
    cbn [andb] in Hbody. cbn [fmap list_fmap fst b_ldata b_shape].
    repeat case_bool_decide; try done.
    + destruct (expand_data rdata rsize ldim); try done.
      cbn [mbind result_bind] in Hbody. injection Hbody as <-.
      cbn [b_ldata b_shape]. by rewrite <- app_assoc.
    + injection Hbody as <-. cbn [b_ldata b_shape]. by rewrite <- app_assoc.
Qed.

(** X19. With [is_lhs_mutable = false], as assignment calls it,
    [braodcast] never touches the left-hand data and never changes a
    left-hand dimension: whenever it returns [true], whatever the two shapes
    and data vectors are, the left-hand data is the one passed in and the
    resulting shape is the left-hand shape, with leading axes of size 1 in
    front when the right-hand shape is longer. *)
Theorem braodcast_keeps_lhs (lshape rshape : Shape) (ldata rdata ldata' rdata' : Data)
    (s : Shape) :
  braodcast lshape rshape false ldata rdata [] = Ok (Some (ldata', rdata', s)) ->
  ldata' = ldata ∧ s = pad_shape (length lshape `max` length rshape) lshape.
Proof.
  unfold braodcast. rewrite braodcast_loop_trailing_pairs.
  destruct (loop_pairs false _ _) as [[st|]| |] eqn:Hloop; try done.
  cbn [mbind result_bind]. intros [= <- _ <-].
  destruct (loop_pairs_false_keeps _ _ _ Hloop) as [-> ->].
  split; [done|]. cbn [b_shape app]. apply trailing_pairs_fst.
Qed.

Lemma braodcast_keeps_lhs_witness :
  [0; 1; 2; 3]%nat = [0; 1; 2; 3]%nat
  ∧ [1; 2; 2] = pad_shape (length [2; 2] `max` length [1; 1; 2]) [2; 2].
Proof.
  apply (braodcast_keeps_lhs [2; 2] [1; 1; 2] [0; 1; 2; 3]%nat [7; 8]%nat
           [0; 1; 2; 3]%nat [7; 8; 7; 8]%nat [1; 2; 2]).
  reflexivity.
Defined.

(** ** What no call changes *)

Lemma operator_loop_appends {T} (f : T -> T -> T) ldata : forall rdata (h : Heap T) cs h2,
  operator_loop f ldata rdata h = Some (cs, h2) ->
  exists vals, h2 = h ++ vals ∧ cs = seq (length h) (length vals).
Proof.
  induction ldata as [|l ldata IH]; intros rdata h cs h2 Hloop.
  - injection Hloop as <- <-. exists []. by rewrite app_nil_r.
  - cbn [operator_loop] in Hloop. destruct rdata as [|r rdata]; [done|].
    destruct (h !! l) as [x|]; [|done]. destruct (h !! r) as [y|]; [|done].
    unfold make_shared in Hloop.
    destruct (operator_loop f ldata rdata (h ++ [f x y])) as [[cs' h']|] eqn:Hrec; [|done].
    injection Hloop as <- <-.
    destruct (IH _ _ _ _ Hrec) as (vals & -> & ->).
    exists (f x y :: vals). rewrite <- app_assoc. split; [done|].
    rewrite length_app. cbn [length seq]. f_equal. f_equal. lia.
Qed.

(** X20. Whatever the operands, valid or not: when a binary operator
    returns, the arena is the old arena with the contents of the result's
    cells appended, so no cell that existed has changed; and when an
    assignment returns, it returns its target, the arena has the size it
    had, and no cell outside the target's has changed. *)
Theorem arena_frame {T : Type} `{Elem T} (a b r : ndarray) (op : Operator) (h h' : Heap T) :
  (operator_impl a b op h = Ret r h' ->
   exists vals, h' = h ++ vals ∧ data_ r = seq (length h) (length vals))
  ∧ (assign a b h = Ret r h' ->
     r = a ∧ length h' = length h ∧ forall c, c ∉ data_ a -> h' !! c = h !! c).
Proof.
  split.
  - unfold operator_impl.
    destruct (braodcast _ _ _ _ _ _) as [[[[ld rd] s]|]| |]; try done.
    destruct (operator_loop _ _ _ _) as [[cs h2]|] eqn:Hloop; [|done].
    intros [= <- <-]. cbn [data_]. by eapply operator_loop_appends.
  - unfold assign.
    destruct (braodcast _ _ _ _ _ _) as [[[[ld rd] s]|]| |]; try done.
    destruct (assign_loop _ _ _) as [h2|] eqn:Hloop; [|done].
    intros [= <- <-]. split; [done|]. by eapply assign_loop_frame.
Qed.

Lemma arena_frame_witness :
  let h := [1; 2; 3] in
  let a := mk_ndarray [2] [0; 1]%nat in
  let b := mk_ndarray [] [2%nat] in
  (exists vals, [1; 2; 3; 4; 5] = h ++ vals ∧ [3; 4]%nat = seq (length h) (length vals))
  ∧ (a = a ∧ length [3; 3; 3] = length h
     ∧ forall c, c ∉ data_ a -> [3; 3; 3] !! c = h !! c).
Proof.
  intros h a b. split.
  - apply (proj1 (arena_frame a b (mk_ndarray [2] [3; 4]%nat) OP_ADD h [1; 2; 3; 4; 5])).
    reflexivity.
  - apply (proj2 (arena_frame a b a OP_ADD h [3; 3; 3])). reflexivity.
Defined.

(** ** Helpers of the class *)

(** X21. [expand_data], as its comment says, repeats data groups of [n]
    elements [k] times: on data made of whole groups of [n] handles it
    returns, group after group, the group repeated [k] times (nothing for
    [k <= 0]), that is [k * n] handles per group, the handle at offset [p]
    of the [t]-th copy of the [j]-th group being the handle at offset [p] of
    that group. *)
Theorem expand_data_repeats (n : nat) (k : Z) (blocks : list Data) :
  Forall (fun b => length b = n) blocks ->
  exists new_data,
    expand_data (concat blocks) (Z.of_nat n) k = Ok new_data
    ∧ new_data = concat ((fun b => concat (replicate (Z.to_nat k) b)) <$> blocks)
    ∧ length new_data = (length blocks * (Z.to_nat k * n))%nat
    ∧ forall (j t p : nat) b,
        blocks !! j = Some b -> (t < Z.to_nat k)%nat -> (p < n)%nat ->
        new_data !! ((j * Z.to_nat k + t) * n + p)%nat = b !! p.
Proof.
  intros Hall. rewrite expand_data_blocks by done.
  eexists. split; [done|]. split; [done|].
  assert (Forall (fun b : Data => length b = (Z.to_nat k * n)%nat)
            ((fun b => concat (replicate (Z.to_nat k) b)) <$> blocks)) as Hrep.
  { apply Forall_fmap. eapply Forall_impl; [|exact Hall]. cbn. intros b Hb.
    rewrite (length_concat_uniform n); [by rewrite length_replicate|].
    by apply Forall_replicate. }
  split.
  - by rewrite (length_concat_uniform _ _ Hrep), length_fmap.
  - intros j t p b Hj Ht Hp.
    replace ((j * Z.to_nat k + t) * n + p)%nat
      with (j * (Z.to_nat k * n) + (t * n + p))%nat by lia.
    rewrite (lookup_concat_uniform _ _ j (t * n + p) (concat (replicate (Z.to_nat k) b)));
      [|done|by rewrite list_lookup_fmap, Hj|nia].
    rewrite list.Forall_forall in Hall.
    apply (lookup_concat_uniform n); [|by apply lookup_replicate_2|done].
    apply Forall_replicate, Hall. by eapply list_elem_of_lookup_2.
Qed.

Lemma expand_data_repeats_witness :
  exists new_data,
    expand_data (concat [[1; 2]; [3; 4]; [5; 6]]%nat) (Z.of_nat 2) 3 = Ok new_data
    ∧ new_data = concat ((fun b => concat (replicate (Z.to_nat 3) b))
                           <$> [[1; 2]; [3; 4]; [5; 6]]%nat)
    ∧ length new_data = (length [[1; 2]; [3; 4]; [5; 6]]%nat * (Z.to_nat 3 * 2))%nat
    ∧ forall (j t p : nat) b,
        [[1; 2]; [3; 4]; [5; 6]]%nat !! j = Some b -> (t < Z.to_nat 3)%nat -> (p < 2)%nat ->
        new_data !! ((j * Z.to_nat 3 + t) * 2 + p)%nat = b !! p.
Proof. apply (expand_data_repeats 2 3 [[1; 2]; [3; 4]; [5; 6]]%nat). repeat constructor. Defined.

(** X22. Reshaping composes: after a successful [reshape] to [s1], a
    further [reshape] to [s2] behaves exactly as reshaping the original
    array to [s2], failure included, and reshaping back to the original
    shape gives the original array back, with the same cells. *)
Theorem reshape_reshape (a r : ndarray) (s1 s2 : Shape) :
  reshape a s1 = Ok r ->
  reshape r s2 = reshape a s2 ∧ reshape r (shape a) = Ok a.
Proof.
  unfold reshape, shape. case_bool_decide as H1; [done|]. intros [= <-].
  cbn [shape_ data_]. rewrite <- H1. split; [done|].
  rewrite bool_decide_eq_false_2 by (by intros Hne; apply Hne).
  by destruct a.
Qed.

Lemma reshape_reshape_witness :
  let a := mk_ndarray [2; 3] [0; 1; 2; 3; 4; 5]%nat in
  let r := mk_ndarray [3; 2] [0; 1; 2; 3; 4; 5]%nat in
  reshape r [6; 1] = reshape a [6; 1] ∧ reshape r (shape a) = Ok a.
Proof. intros a r. by apply (reshape_reshape a r [3; 2] [6; 1]). Defined.


(** ** Printing *)

Lemma render_row {T} (d : Z) (vals : list T) :
  render [d] vals = tok_open :: (tok_elem <$> take (Z.to_nat d) vals) ++ [tok_close].
Proof.
  cbn [render]. do 2 f_equal. rewrite nsize_nil.
  rewrite <- (Nat.mul_1_r (Z.to_nat d)) at 2. rewrite <- concat_chunks.
  generalize (Z.to_nat d) as q. intros q. revert vals.
  induction q as [|q IH]; intros vals; [done|].
  cbn [chunks fmap list_fmap concat]. rewrite fmap_app. f_equal. apply IH.
Qed.

Lemma printed_values_app {T} (l k : list (token T)) :
  printed_values (l ++ k) = printed_values l ++ printed_values k.
Proof. apply omap_app. Qed.

Lemma printed_values_elems {T} (vals : list T) : printed_values (tok_elem <$> vals) = vals.
Proof. induction vals as [|v vals IH]; [done|]. cbn. f_equal. apply IH. Qed.

Lemma printed_values_render {T} s : forall vals : list T,
  Forall (fun d => 0 ≤ d) s -> length vals = nsize s ->
  printed_values (render s vals) = vals.
Proof.
  induction s as [|d s IH]; intros vals Hs Hlen; [apply printed_values_elems|].
  apply list.Forall_cons in Hs as [Hd Hs]. rewrite nsize_cons in Hlen by done.
  cbn [render]. change (tok_open :: ?l) with ([@tok_open T] ++ l).
  rewrite !printed_values_app. cbn [printed_values omap list_omap app].
  rewrite app_nil_r.
  rewrite <- (concat_chunks_all (Z.to_nat d) (nsize s) vals) at 2 by done.
  pose proof (Forall_length_chunks (Z.to_nat d) (nsize s) vals) as Hch.
  specialize (Hch ltac:(lia)). revert Hch.
  generalize (chunks (Z.to_nat d) (nsize s) vals) as cs. intros cs Hch.
  induction Hch as [|b cs Hb _ IHcs]; [done|].
  cbn [fmap list_fmap concat]. rewrite printed_values_app, IH by done. by f_equal.
Qed.

Section printing.
Context {T : Type} (ary : ndarray) (h : Heap T).
Hypothesis Hlive : live h ary.

Lemma print_run_S fuel st :
  print_run (S fuel) ary h st = resume fuel ary h (print_step ary h st).
Proof. reflexivity. Qed.

(** The second loop: [c] elements, one after the other. *)
Lemma print_elems (c : nat) s : forall i out fuel,
  (i + c ≤ length (data_ ary))%nat ->
  print_run (S c + fuel) ary h (mk_pstate at_elem (Z.of_nat c :: s) i out)
  = print_run fuel ary h
      (mk_pstate at_close (0 :: s) (i + c)
         (out ++ (tok_elem <$> take c (drop i (contents h (data_ ary)))))).
Proof.
  induction c as [|c IH]; intros i out fuel Hi.
  - cbn [Nat.add]. rewrite print_run_S. cbn [print_step resume].
    rewrite bool_decide_eq_false_2 by lia.
    by rewrite take_0, app_nil_r, Nat.add_0_r.
  - change (S (S c) + fuel)%nat with (S (S c + fuel)). rewrite print_run_S.
    cbn [print_step]. rewrite bool_decide_eq_true_2 by lia.
    destruct (lookup_lt_is_Some_2 (data_ ary) i) as [cell Hcell]; [lia|].
    rewrite Hcell.
    pose proof (contents_lookup _ _ _ _ Hlive Hcell) as Hv.
    unfold live in Hlive. rewrite list.Forall_forall in Hlive.
    destruct (lookup_lt_is_Some_2 h cell) as [v Hcv];
      [by eapply Hlive, list_elem_of_lookup_2|].
    rewrite Hcv in *. cbn [resume].
    replace (Z.of_nat (S c) - 1) with (Z.of_nat c) by lia.
    rewrite IH by lia. rewrite (drop_S _ _ _ Hv). cbn [take fmap list_fmap].
    rewrite <- app_assoc. cbn [app]. do 2 f_equal. lia.
Qed.

(** The third loop at a count that has reached 0. *)
Lemma print_close s i out fuel :
  print_run (S fuel) ary h (mk_pstate at_close (0 :: s) i out)
  = resume fuel ary h (finish s i (out ++ [tok_close])).
Proof.
  rewrite print_run_S. cbn [print_step]. rewrite bool_decide_eq_true_2 by done.
  by destruct s.
Qed.

(** A whole sub-array, from its opening bracket to its closing one. *)
Lemma print_subarray s' : forall pre s i out,
  shape_ ary = pre ++ s' -> s' ≠ [] -> length s = length pre ->
  Forall (fun d => 0 ≤ d) s' -> Forall (fun d => 0 < d) (removelast s') ->
  (i + nsize s' ≤ length (data_ ary))%nat ->
  exists n, forall fuel,
    print_run (n + fuel) ary h (mk_pstate at_push s i out)
    = resume fuel ary h
        (finish s (i + nsize s')
           (out ++ render s' (take (nsize s') (drop i (contents h (data_ ary)))))).
Proof.
  induction s' as [|d s'' IH]; intros pre s i out Hshape Hne Hlen Hnonneg Hpos Hi; [done|].
  apply list.Forall_cons in Hnonneg as [Hd Hs''].
  rewrite nsize_cons in * by done.
  destruct (Z_of_nat_complete d Hd) as [c ->]. rewrite Nat2Z.id in *.
  assert (forall fuel o,
            print_run (S fuel) ary h (mk_pstate at_push s i o)
            = print_run fuel ary h (mk_pstate at_push (Z.of_nat c :: s) i (o ++ [tok_open])))
    as Hpush.
  { intros fuel o. rewrite print_run_S. cbn [print_step].
    rewrite bool_decide_eq_true_2
      by (unfold ndim; rewrite Hshape, length_app; cbn [length]; lia).
    rewrite Hshape, Hlen, list_lookup_middle by done. done. }
  destruct s'' as [|d2 s3].
  - (* the innermost axis *)
    rewrite nsize_nil, Nat.mul_1_r in *.
    exists (S (S (S c + 1)))%nat. intros fuel.
    change (S (S ?n) + fuel)%nat with (S (S (n + fuel))).
    rewrite Hpush, print_run_S. cbn [print_step].
    rewrite bool_decide_eq_false_2
      by (unfold ndim; rewrite Hshape, length_app; cbn [length]; lia).
    cbn [resume].
    rewrite <- Nat.add_assoc, print_elems by lia.
    cbn [Nat.add]. rewrite print_close. rewrite render_row, Nat2Z.id, take_take, Nat.min_id.
    rewrite <- !app_assoc. done.
  - (* an axis of sub-arrays *)
    cbn [removelast] in Hpos. apply list.Forall_cons in Hpos as [Hd0 Hpos].
    set (m := nsize (d2 :: s3)) in *.
    assert (forall q : nat, forall i out, (0 < q)%nat ->
              (i + q * m ≤ length (data_ ary))%nat ->
              exists n, forall fuel,
                print_run (n + fuel) ary h (mk_pstate at_push (Z.of_nat q :: s) i out)
                = print_run fuel ary h
                    (mk_pstate at_close (0 :: s) (i + q * m)
                       (out ++ concat (render (d2 :: s3)
                                         <$> chunks q m (drop i (contents h (data_ ary)))))))
      as Hchildren.
    { intros q. induction q as [|q IHq]; intros i' out' Hq Hi'; [lia|].
      destruct (IH (pre ++ [Z.of_nat c]) (Z.of_nat (S q) :: s) i' out') as [n1 Hn1].
      - by rewrite <- app_assoc.
      - done.
      - rewrite length_app. cbn [length]. lia.
      - done.
      - done.
      - fold m. lia.
      - fold m in Hn1. cbn [finish] in Hn1.
        replace (Z.of_nat (S q) - 1) with (Z.of_nat q) in Hn1 by lia.
        destruct q as [|q].
        + exists n1. intros fuel. rewrite Hn1. cbn [resume chunks fmap list_fmap concat].
          rewrite app_nil_r. do 3 f_equal. lia.
        + destruct (IHq (i' + m)%nat
                      (out' ++ render (d2 :: s3)
                                 (take m (drop i' (contents h (data_ ary))))))
            as [n2 Hn2]; [lia|lia|].
          exists (n1 + S n2)%nat. intros fuel.
          rewrite <- Nat.add_assoc, Hn1. cbn [resume].
          change (S n2 + fuel)%nat with (S (n2 + fuel)). rewrite print_run_S.
          cbn [print_step]. rewrite bool_decide_eq_false_2 by lia. cbn [resume].
          rewrite Hn2.
          change (chunks (S (S q)) m ?l) with (take m l :: chunks (S q) m (drop m l)).
          cbn [fmap list_fmap concat]. rewrite drop_drop, <- app_assoc.
          replace (i' + m + S q * m)%nat with (i' + S (S q) * m)%nat by lia. done. }
    destruct (Hchildren c i (out ++ [tok_open])) as [n Hn]; [lia|lia|].
    exists (S (n + 1))%nat. intros fuel.
    change (S (n + 1) + fuel)%nat with (S (n + 1 + fuel)). rewrite Hpush.
    rewrite <- Nat.add_assoc, Hn. cbn [Nat.add]. rewrite print_close.
    cbn [render]. fold m. rewrite Nat2Z.id, chunks_take by lia.
    rewrite <- !app_assoc. done.
Qed.

End printing.

(** X24. Printing a valid array whose cells are allocated and whose axes,
    the last one apart, all have a positive size: [operator<<] returns, and
    the stream has received ["array("], the nested rendering of the values
    at the array's shape (an opening bracket, the sub-arrays or the
    elements in row-major order, a closing bracket) and [")"]; for rank 0,
    the bare value.  Every element is printed exactly once, in row-major
    order. *)
Theorem stream_insert_spec {T : Type} (a : ndarray) (h : Heap T) :
  valid a -> live h a ->
  Forall (fun d => 0 < d) (removelast (shape a)) ->
  exists fuel0, forall fuel, (fuel0 ≤ fuel)%nat ->
    exists out,
      stream_insert fuel a h = Some (Ok out)
      ∧ out = (if bool_decide (ndim a = 0) then tok_value <$> contents h (data_ a)
               else tok_array_open :: render (shape a) (contents h (data_ a))
                      ++ [tok_array_close])
      ∧ printed_values out = contents h (data_ a).
Proof.
  unfold shape. intros Va La Hpos. unfold stream_insert.
  pose proof (valid_length _ Va) as Hlen.
  pose proof (length_contents h _ La) as Hclen.
  case_bool_decide as Hrank.
  - exists 0%nat. intros fuel _.
    unfold ndim in Hrank. destruct (shape_ a) as [|d s] eqn:Hs; [|cbn in Hrank; lia].
    rewrite nsize_nil in Hlen.
    rewrite bool_decide_eq_true_2 by (unfold size; lia).
    destruct (data_ a) as [|c [|c' cs]] eqn:Hd; cbn in Hlen; try lia.
    unfold live in La. rewrite Hd in La. apply list.Forall_cons in La as [Hc _].
    destruct (lookup_lt_is_Some_2 h c Hc) as [v Hv].
    unfold to_scalar, size. rewrite Hd. cbn [length].
    rewrite bool_decide_eq_false_2 by (by intros Hne; apply Hne).
    rewrite Hv, (contents_cons _ _ _ _ Hv). eexists. by split.
  - destruct (print_subarray a h La (shape_ a) [] [] 0%nat [tok_array_open])
      as [n Hn]; try done.
    { intros Hnil. apply Hrank. unfold ndim. by rewrite Hnil. }
    { apply (valid_dims _ Va). }
    { lia. }
    exists n. intros fuel Hfuel.
    replace fuel with (n + (fuel - n))%nat by lia. rewrite Hn.
    cbn [finish resume Nat.add]. rewrite drop_0, take_ge by lia.
    eexists. split; [done|]. split; [by rewrite <- app_assoc|].
    rewrite !printed_values_app, printed_values_render;
      [by rewrite app_nil_r|apply (valid_dims _ Va)|lia].
Qed.

Lemma stream_insert_spec_witness :
  let a := mk_ndarray [2; 1; 2] [0; 1; 2; 3]%nat in
  let h := [10; 11; 12; 13] in
  exists fuel0, forall fuel, (fuel0 ≤ fuel)%nat ->
    exists out,
      stream_insert fuel a h = Some (Ok out)
      ∧ out = (if bool_decide (ndim a = 0) then tok_value <$> contents h (data_ a)
               else tok_array_open :: render (shape a) (contents h (data_ a))
                      ++ [tok_array_close])
      ∧ printed_values out = contents h (data_ a).
Proof.
  intros a h. apply (stream_insert_spec a h).
  - split; [repeat constructor; lia|reflexivity].
  - repeat constructor; simpl; lia.
  - repeat constructor; lia.
Defined.

(** What the stream receives for the array [a] of [main] when it has just
    been built. *)
Example main_print :
  exists h,
    and_then (arange 20 0 []) (fun a0 h =>
    and_then (lift (reshape a0 [4; 1; 5]) h) (fun a h =>
    Ret (stream_insert 64 a h) h))
    = Ret (Some (Ok (tok_array_open
                     :: render [4; 1; 5] (seqZ 0 20) ++ [tok_array_close]))) h.
Proof. eexists. vm_compute. reflexivity. Qed.

(** Outside the positivity condition the loops misbehave: with an empty
    axis in front of a non-empty one the second loop reads a cell that does
    not exist, and with two empty axes the loops never end. *)
Example stream_insert_empty_axis :
  stream_insert 100 (mk_ndarray [0; 3] []) ([] : list Z) = Some Undef
  ∧ stream_insert 100 (mk_ndarray [0] []) ([] : list Z)
    = Some (Ok [tok_array_open; tok_open; tok_close; tok_array_close]).
Proof. split; reflexivity. Qed.

Lemma print_two_empty_axes (fuel : nat) : forall (k : Z) (out : list (token Z)),
  0 < k ->
  print_run fuel (mk_ndarray [0; 0] []) [] (mk_pstate at_push [- k] 0 out) = None.
Proof.
  induction fuel as [fuel IH] using lt_wf_ind. intros k out Hk.
  destruct fuel as [|fuel]; [reflexivity|].
  rewrite print_run_S. cbn [print_step]. unfold ndim. cbn [shape_ length].
  rewrite bool_decide_eq_true_2 by lia.
  change ([0; 0] !! 1%nat) with (Some 0). cbn [resume].
  destruct fuel as [|fuel]; [reflexivity|].
  rewrite print_run_S. cbn [print_step]. unfold ndim. cbn [shape_ length].
  rewrite bool_decide_eq_false_2 by lia. cbn [resume].
  destruct fuel as [|fuel]; [reflexivity|].
  rewrite print_run_S. cbn [print_step].
  rewrite bool_decide_eq_false_2 by lia. cbn [resume].
  destruct fuel as [|fuel]; [reflexivity|].
  rewrite print_run_S. cbn [print_step].
  rewrite bool_decide_eq_true_2 by done. cbn [resume].
  destruct fuel as [|fuel]; [reflexivity|].
  rewrite print_run_S. cbn [print_step].
  rewrite bool_decide_eq_false_2 by lia. cbn [resume].
  replace (- k - 1) with (- (k + 1)) by lia. apply IH; lia.
Qed.

(** With two empty axes the loops never end, however many tests they are
    given. *)
Example stream_insert_two_empty_axes (fuel : nat) :
  stream_insert fuel (mk_ndarray [0; 0] []) ([] : list Z) = None.
Proof.
  unfold stream_insert. rewrite bool_decide_eq_false_2 by done.
  destruct fuel as [|fuel]; [reflexivity|].
  rewrite print_run_S. cbn [print_step]. unfold ndim. cbn [shape_ length].
  rewrite bool_decide_eq_true_2 by lia.
  change ([0; 0] !! 0%nat) with (Some 0). cbn [resume].
  destruct fuel as [|fuel]; [reflexivity|].
  rewrite print_run_S. cbn [print_step]. unfold ndim. cbn [shape_ length].
  rewrite bool_decide_eq_true_2 by lia.
  change ([0; 0] !! 1%nat) with (Some 0). cbn [resume].
  destruct fuel as [|fuel]; [reflexivity|].
  rewrite print_run_S. cbn [print_step]. unfold ndim. cbn [shape_ length].
  rewrite bool_decide_eq_false_2 by lia. cbn [resume].
  destruct fuel as [|fuel]; [reflexivity|].
  rewrite print_run_S. cbn [print_step].
  rewrite bool_decide_eq_false_2 by lia. cbn [resume].
  destruct fuel as [|fuel]; [reflexivity|].
  rewrite print_run_S. cbn [print_step].
  rewrite bool_decide_eq_true_2 by done. cbn [resume].
  destruct fuel as [|fuel]; [reflexivity|].
  rewrite print_run_S. cbn [print_step].
  rewrite bool_decide_eq_false_2 by lia. cbn [resume].
  change (0 - 1) with (- (1)). by rewrite print_two_empty_axes.
Qed.
